(** * Shallow embedding of the ghreporting fetch-and-aggregate core

    Sources: internal/models/types.go (the package reporter part:
    GenerateReport, processRepositoryWorker, processRepository,
    selectBranchesToProcess, generateSummary, getAuthorKey) and
    internal/client/github.go (ListCommits). *)

From stdpp Require Import base gmap strings list fin_maps.
From Stdlib Require Import ZArith String Ascii.

Open Scope Z_scope.

(* ------------------------------------------------------------------ *)
(** ** Go's [int]: a 64-bit two's complement integer *)

Definition wrap64 (x : Z) : Z := ((x + 2 ^ 63) mod 2 ^ 64) - 2 ^ 63.

(** [a + b] on Go ints. *)
Definition iadd (a b : Z) : Z := wrap64 (a + b).

(** [x++] on Go ints. *)
Definition iinc (a : Z) : Z := iadd a 1.

(* ------------------------------------------------------------------ *)
(** ** Data model (package models) *)

Record Author := mkAuthor {
  AName : string;
  AEmail : string;
  ALogin : string
}.

Record CommitStats := mkCommitStats {
  Additions : Z;
  Deletions : Z;
  Total : Z
}.

(** [Date] is a [time.Time]; it is carried as an opaque integer. *)
Record Commit := mkCommit {
  CSHA : string;
  CMessage : string;
  CAuthor : Author;
  CDate : Z;
  CStats : CommitStats
}.

Record Branch := mkBranch {
  BName : string;
  BSHA : string;
  BCommits : list Commit
}.

Record Repository := mkRepository {
  RName : string;
  RFullName : string;
  RURL : string;
  RDefaultBranch : string;
  RBranches : list Branch
}.

Record RepositoryStats := mkRepositoryStats {
  RSCommits : Z;
  RSAdditions : Z;
  RSDeletions : Z
}.

(** The zero value of [RepositoryStats], returned by a Go map lookup of an
    absent key. *)
Definition zeroRepositoryStats : RepositoryStats := mkRepositoryStats 0 0 0.

(** The [Repositories] field is a Go map, i.e. a reference.  Each
    [ContributorStats] value gets its own map ([make] on first sight of its
    key) and no map is shared between two keys of the summary, so the map is
    modelled as a value. *)
Record ContributorStats := mkContributorStats {
  CSName : string;
  CSEmail : string;
  CSLogin : string;
  TotalCommits : Z;
  TotalAdditions : Z;
  TotalDeletions : Z;
  CSRepositories : gmap string RepositoryStats
}.

(* ------------------------------------------------------------------ *)
(** ** getAuthorKey *)

Definition getAuthorKey (author : Author) : string :=
  if negb (String.eqb (ALogin author) "") then ALogin author
  else if negb (String.eqb (AEmail author) "") then AEmail author
  else AName author.

(* ------------------------------------------------------------------ *)
(** ** selectBranchesToProcess *)

(** [branchMap[name]] on a [map[string]bool]: false when absent. *)
Definition mapGet (m : gmap string bool) (k : string) : bool :=
  match m !! k with Some b => b | None => false end.

(** The first loop: append the first branch named [defaultBranch], then
    [break]. *)
Fixpoint selectDefault (branches : list Branch) (defaultBranch : string)
    (selected : list Branch) (branchMap : gmap string bool)
    : list Branch * gmap string bool :=
  match branches with
  | [] => (selected, branchMap)
  | branch :: rest =>
      if String.eqb (BName branch) defaultBranch
      then (selected ++ [branch], <[BName branch := true]> branchMap)
      else selectDefault rest defaultBranch selected branchMap
  end.

(** The inner loop over [branches] for one [importantBranch]. *)
Fixpoint selectImportant (branches : list Branch) (importantBranch : string)
    (selected : list Branch) (branchMap : gmap string bool)
    : list Branch * gmap string bool :=
  match branches with
  | [] => (selected, branchMap)
  | branch :: rest =>
      if String.eqb (BName branch) importantBranch
      then (selected ++ [branch], <[BName branch := true]> branchMap)
      else selectImportant rest importantBranch selected branchMap
  end.

Definition importantBranches : list string :=
  ["main"; "master"; "develop"; "dev"; "staging"; "production"]%string.

(** The outer loop over [importantBranches]. *)
Fixpoint selectAllImportant (branches : list Branch) (names : list string)
    (selected : list Branch) (branchMap : gmap string bool)
    : list Branch * gmap string bool :=
  match names with
  | [] => (selected, branchMap)
  | importantBranch :: names' =>
      let '(selected', branchMap') :=
        if negb (mapGet branchMap importantBranch)
        then selectImportant branches importantBranch selected branchMap
        else (selected, branchMap) in
      selectAllImportant branches names' selected' branchMap'
  end.

Definition selectBranchesToProcess (branches : list Branch)
    (defaultBranch : string) : list Branch :=
  let '(selected, branchMap) := selectDefault branches defaultBranch [] ∅ in
  fst (selectAllImportant branches importantBranches selected branchMap).

(* ------------------------------------------------------------------ *)
(** ** generateSummary *)

(** The entry created on first sight of an author key. *)
Definition seedStats (author : Author) : ContributorStats :=
  mkContributorStats (AName author) (AEmail author) (ALogin author) 0 0 0 ∅.

(** The body of the innermost loop, for one commit of repository
    [fullName]. *)
Definition summaryStep (fullName : string)
    (summary : gmap string ContributorStats) (commit : Commit)
    : gmap string ContributorStats :=
  let authorKey := getAuthorKey (CAuthor commit) in
  let stats := match summary !! authorKey with
               | Some s => s
               | None => seedStats (CAuthor commit)
               end in
  let repoStats := match CSRepositories stats !! fullName with
                   | Some rs => rs
                   | None => zeroRepositoryStats
                   end in
  let repoStats' := mkRepositoryStats
        (iinc (RSCommits repoStats))
        (iadd (RSAdditions repoStats) (Additions (CStats commit)))
        (iadd (RSDeletions repoStats) (Deletions (CStats commit))) in
  let stats' := mkContributorStats (CSName stats) (CSEmail stats) (CSLogin stats)
        (iinc (TotalCommits stats))
        (iadd (TotalAdditions stats) (Additions (CStats commit)))
        (iadd (TotalDeletions stats) (Deletions (CStats commit)))
        (<[fullName := repoStats']> (CSRepositories stats)) in
  <[authorKey := stats']> summary.

Definition summaryBranch (fullName : string)
    (summary : gmap string ContributorStats) (branch : Branch) :=
  fold_left (summaryStep fullName) (BCommits branch) summary.

Definition summaryRepo (summary : gmap string ContributorStats) (repo : Repository) :=
  fold_left (summaryBranch (RFullName repo)) (RBranches repo) summary.

Definition generateSummary (repos : list Repository) : gmap string ContributorStats :=
  fold_left summaryRepo repos ∅.

(** The traversal order of [generateSummary]: every commit, tagged with the
    full name of its repository. *)
Definition commitsOf (repos : list Repository) : list (string * Commit) :=
  flat_map (fun repo =>
    flat_map (fun branch => map (pair (RFullName repo)) (BCommits branch))
             (RBranches repo)) repos.

(** Sums over a [Repositories] map, computed with Go's [int] addition. *)
Definition sumBy (proj : RepositoryStats -> Z) (m : gmap string RepositoryStats) : Z :=
  map_fold (fun _ rs acc => iadd acc (proj rs)) 0 m.
Definition sumCommits (m : gmap string RepositoryStats) : Z := sumBy RSCommits m.
Definition sumAdditions (m : gmap string RepositoryStats) : Z := sumBy RSAdditions m.
Definition sumDeletions (m : gmap string RepositoryStats) : Z := sumBy RSDeletions m.

Definition statsConsistent (s : ContributorStats) : Prop :=
  TotalCommits s = sumCommits (CSRepositories s) /\
  TotalAdditions s = sumAdditions (CSRepositories s) /\
  TotalDeletions s = sumDeletions (CSRepositories s).

(** The loop of [generateSummary] over the flattened traversal. *)
Definition summaryStepPair (summary : gmap string ContributorStats)
    (nc : string * Commit) : gmap string ContributorStats :=
  summaryStep (fst nc) summary (snd nc).

(** The numeric part of a [ContributorStats]: everything but the seeded
    Name/Email/Login fields. *)
Definition countsOf (s : ContributorStats) : Z * Z * Z * gmap string RepositoryStats :=
  (TotalCommits s, TotalAdditions s, TotalDeletions s, CSRepositories s).

Abbreviation Counts := (Z * Z * Z * gmap string RepositoryStats)%type.

(** [summaryStep] seen through [countsOf]. *)
Definition countsStep (summary : gmap string Counts) (nc : string * Commit)
    : gmap string Counts :=
  let fullName := fst nc in
  let commit := snd nc in
  let authorKey := getAuthorKey (CAuthor commit) in
  let v := match summary !! authorKey with
           | Some v => v
           | None => (0, 0, 0, ∅)
           end in
  let repoStats := match v.2 !! fullName with
                   | Some rs => rs
                   | None => zeroRepositoryStats
                   end in
  let repoStats' := mkRepositoryStats
        (iinc (RSCommits repoStats))
        (iadd (RSAdditions repoStats) (Additions (CStats commit)))
        (iadd (RSDeletions repoStats) (Deletions (CStats commit))) in
  <[authorKey := (iinc v.1.1.1,
                  iadd v.1.1.2 (Additions (CStats commit)),
                  iadd v.1.2 (Deletions (CStats commit)),
                  <[fullName := repoStats']> v.2)]> summary.

(* ------------------------------------------------------------------ *)
(** ** The branch policy as the spec words it (section 4.1) *)

Definition firstNamed (branches : list Branch) (n : string) : option Branch :=
  find (fun b => String.eqb (BName b) n) branches.

(** "for each name in the priority list not already included, include the
    first branch in the input matching that name" *)
Definition includeIfAbsent (branches : list Branch) (acc : list Branch) (n : string)
    : list Branch :=
  if existsb (fun b => String.eqb (BName b) n) acc then acc
  else acc ++ option_list (firstNamed branches n).

Definition selectSpec (branches : list Branch) (defaultBranch : string) : list Branch :=
  fold_left (includeIfAbsent branches) importantBranches
    (option_list (firstNamed branches defaultBranch)).

(* ------------------------------------------------------------------ *)
(** ** strings.Split with the one-byte separator ["/"] *)

Fixpoint splitOn (sep : ascii) (s : string) : list string :=
  match s with
  | EmptyString => [""%string]
  | String a s' =>
      let rest := splitOn sep s' in
      if Ascii.eqb a sep then ""%string :: rest
      else match rest with
           | h :: t => String a h :: t
           | [] => [String a ""]
           end
  end.

Fixpoint countChar (c : ascii) (s : string) : nat :=
  match s with
  | EmptyString => O
  | String a s' => if Ascii.eqb a c then S (countChar c s') else countChar c s'
  end.

Definition slash : ascii := "/"%char.

(* ------------------------------------------------------------------ *)
(** ** processRepository, processRepositoryWorker, GenerateReport *)

(** The failures of [processRepository]: the invalid-name error built by
    [fmt.Errorf], or an error returned by the client. *)
Inductive RepoError (E : Type) : Type :=
  | InvalidName (fullName : string)
  | ProviderError (e : E).
Arguments InvalidName {E} fullName.
Arguments ProviderError {E} e.

Definition setBranches (repo : Repository) (bs : list Branch) : Repository :=
  mkRepository (RName repo) (RFullName repo) (RURL repo) (RDefaultBranch repo) bs.

Definition setCommits (branch : Branch) (cs : list Commit) : Branch :=
  mkBranch (BName branch) (BSHA branch) cs.

(** [models.Period] and [models.Report]; times are opaque integers. *)
Record Period := mkPeriod { Since : Z; Until : Z }.
Record Report := mkReport {
  Target : string;
  RPeriod : Period;
  Repositories : list Repository;
  Summary : gmap string ContributorStats
}.

(** One run of a report: the client's calls ([r.client.ListBranches],
    [r.client.ListCommits]) and the time window. *)
Section Reporter.
Context {E : Type}.
Variable clientListBranches : string -> string -> list Branch + E.
Variable clientListCommits : string -> string -> string -> Z -> Z -> list Commit + E.
Variables since until : Z.

(** The loop over [branchesToProcess]: a failed fetch is logged and the
    branch skipped ([continue]); otherwise the branch, with its commits, is
    appended to [processedBranches]. *)
Fixpoint processBranches (owner repoName : string) (branches : list Branch)
    (processedBranches : list Branch) : list Branch :=
  match branches with
  | [] => processedBranches
  | branch :: rest =>
      match clientListCommits owner repoName (BName branch) since until with
      | inr _ => processBranches owner repoName rest processedBranches
      | inl commits =>
          processBranches owner repoName rest
            (processedBranches ++ [setCommits branch commits])
      end
  end.

(** [processRepository] after the split of the full name. *)
Definition processParsed (owner repoName : string) (repo : Repository)
    : Repository + RepoError E :=
  match clientListBranches owner repoName with
  | inr err => inr (ProviderError err)
  | inl branches =>
      let branchesToProcess := selectBranchesToProcess branches (RDefaultBranch repo) in
      inl (setBranches repo (processBranches owner repoName branchesToProcess []))
  end.

Definition processRepository (repo : Repository) : Repository + RepoError E :=
  match splitOn slash (RFullName repo) with
  | [owner; repoName] => processParsed owner repoName repo
  | _ => inr (InvalidName (RFullName repo))
  end.

(** What [processRepositoryWorker] sends for one repository: the processed
    repository on [resultsChan], or the error wrapped with the repository's
    full name on [errorsChan]. *)
Definition workerOutcome (repo : Repository)
    : Repository + (string * RepoError E) :=
  match processRepository repo with
  | inl processedRepo => inl processedRepo
  | inr err => inr (RFullName repo, err)
  end.

(** The state of [GenerateReport] after [ListRepositories] succeeded:
    the work queue [reposChan], the repositories the workers are working on,
    the two buffered result channels and the two slices of the collector. *)
Record Coord := mkCoord {
  reposChan : list Repository;
  inFlight : list Repository;
  resultsChan : list Repository;
  errorsChan : list (string * RepoError E);
  processedRepos : list Repository;
  errors : list (string * RepoError E)
}.

Definition maxWorkers : nat := 10.

(** [for i := 0; i < maxWorkers && i < len(repos); i++]: the number of
    worker goroutines. *)
Definition numWorkers (repos : list Repository) : nat := Nat.min maxWorkers (List.length repos).

(** One step of any goroutine: a worker receives the next repository from
    [reposChan] (at most [nw] repositories are in flight); a worker finishes
    one of its repositories and sends the outcome; the collector receives
    from either channel.  The channels are FIFO with a buffer of
    [len(repos)], so no send blocks. *)
Inductive coordStep (nw : nat) : Coord -> Coord -> Prop :=
  | step_take r q inf rc ec pr er :
      (List.length inf < nw)%nat ->
      coordStep nw (mkCoord (r :: q) inf rc ec pr er) (mkCoord q (r :: inf) rc ec pr er)
  | step_finish_ok q l1 r l2 rc ec pr er r' :
      workerOutcome r = inl r' ->
      coordStep nw (mkCoord q (l1 ++ r :: l2) rc ec pr er)
                   (mkCoord q (l1 ++ l2) (rc ++ [r']) ec pr er)
  | step_finish_err q l1 r l2 rc ec pr er e :
      workerOutcome r = inr e ->
      coordStep nw (mkCoord q (l1 ++ r :: l2) rc ec pr er)
                   (mkCoord q (l1 ++ l2) rc (ec ++ [e]) pr er)
  | step_recv_result q inf r rc ec pr er :
      coordStep nw (mkCoord q inf (r :: rc) ec pr er) (mkCoord q inf rc ec (pr ++ [r]) er)
  | step_recv_error q inf rc e ec pr er :
      coordStep nw (mkCoord q inf rc (e :: ec) pr er) (mkCoord q inf rc ec pr (er ++ [e])).

Definition coordInit (repos : list Repository) : Coord := mkCoord repos [] [] [] [] [].

(** The collector's loop ends: the workers are done (so both channels are
    closed) and both channels are drained. *)
Definition coordDone (c : Coord) : Prop :=
  reposChan c = [] /\ inFlight c = [] /\ resultsChan c = [] /\ errorsChan c = [].

(** The outcomes held by a state: collected, buffered in a channel, or
    still to be produced by a worker (in flight or queued). *)
Definition coordOutcomes (c : Coord) : list (Repository + (string * RepoError E)) :=
  map inl (processedRepos c) ++ map inr (errors c) ++
  map inl (resultsChan c) ++ map inr (errorsChan c) ++
  map workerOutcome (inFlight c) ++ map workerOutcome (reposChan c).

(** The work left: it decreases with every step. *)
Definition coordMeasure (c : Coord) : nat :=
  3 * List.length (reposChan c) + 2 * List.length (inFlight c) +
  List.length (resultsChan c) + List.length (errorsChan c).

(** [GenerateReport], given the outcome [listed] of
    [r.client.ListRepositories(ctx, target)]: a listing error is returned
    (wrapped by [fmt.Errorf]); otherwise the report holds the repositories
    collected by a complete run of the worker pool and their summary. *)
Inductive GenerateReport (target : string) (listed : list Repository + E)
    : Report + E -> Prop :=
  | report_list_failed err :
      listed = inr err -> GenerateReport target listed (inr err)
  | report_done repos c :
      listed = inl repos ->
      rtc (coordStep (numWorkers repos)) (coordInit repos) c -> coordDone c ->
      GenerateReport target listed
        (inl (mkReport target (mkPeriod since until) (processedRepos c)
                       (generateSummary (processedRepos c)))).

End Reporter.

(* ------------------------------------------------------------------ *)
(** ** ListCommits (internal/client/github.go) *)

(** The go-github values read by [ListCommits]; every pointer field is an
    option, and a getter on [nil] returns the zero value. *)
Record GHCommitAuthor := mkGHCommitAuthor {
  gcaName : option string; gcaEmail : option string; gcaDate : option Z }.
Record GHCommit := mkGHCommit {
  gcAuthor : option GHCommitAuthor; gcMessage : option string }.
Record GHUser := mkGHUser { guLogin : option string }.
Record GHCommitStats := mkGHCommitStats {
  gsAdditions : option Z; gsDeletions : option Z; gsTotal : option Z }.
Record GHRepositoryCommit := mkGHRepositoryCommit {
  grSHA : option string; grCommit : option GHCommit;
  grAuthor : option GHUser; grStats : option GHCommitStats }.

Definition getOr {A} (d : A) (o : option A) : A :=
  match o with Some x => x | None => d end.

Definition commitAuthorOf (commit : GHRepositoryCommit) : option GHCommitAuthor :=
  match grCommit commit with Some c => gcAuthor c | None => None end.

(** [models.CommitStats{Additions: detailedCommit.GetStats().GetAdditions(),
    Deletions: ...GetDeletions(), Total: ...GetTotal()}]. *)
Definition ghStats (detailedCommit : GHRepositoryCommit) : CommitStats :=
  let st := grStats detailedCommit in
  mkCommitStats
    (getOr 0 (match st with Some x => gsAdditions x | None => None end))
    (getOr 0 (match st with Some x => gsDeletions x | None => None end))
    (getOr 0 (match st with Some x => gsTotal x | None => None end)).

Section GitHubClient.
Context {E : Type}.
(** [Repositories.ListCommits] with the pagination loop run to its end:
    all pages concatenated, or the first page error. *)
Variable apiListCommits : string -> string -> string -> Z -> Z -> list GHRepositoryCommit + E.
(** [Repositories.GetCommit]. *)
Variable apiGetCommit : string -> string -> string -> GHRepositoryCommit + E.

Fixpoint convertCommits (owner repo : string) (allCommits : list GHRepositoryCommit)
    : list Commit :=
  match allCommits with
  | [] => []
  | commit :: rest =>
      match apiGetCommit owner repo (getOr "" (grSHA commit)) with
      | inr _ => convertCommits owner repo rest
      | inl detailedCommit =>
          let ca := commitAuthorOf commit in
          let author0 := mkAuthor
                (getOr "" (match ca with Some a => gcaName a | None => None end))
                (getOr "" (match ca with Some a => gcaEmail a | None => None end)) "" in
          let author := match grAuthor commit with
                        | Some u => mkAuthor (AName author0) (AEmail author0)
                                             (getOr "" (guLogin u))
                        | None => author0
                        end in
          mkCommit (getOr "" (grSHA commit))
            (getOr "" (match grCommit commit with Some c => gcMessage c | None => None end))
            author
            (getOr 0 (match ca with Some a => gcaDate a | None => None end))
            (ghStats detailedCommit)
          :: convertCommits owner repo rest
      end
  end.

Definition ListCommits (owner repo branch : string) (since until : Z) : list Commit + E :=
  match apiListCommits owner repo branch since until with
  | inr err => inr err
  | inl allCommits => inl (convertCommits owner repo allCommits)
  end.

End GitHubClient.

Definition br (n : string) : Branch := mkBranch n "" [].

Definition c5Input : list Branch :=
  [br "feature/x"; br "main"; br "develop"; br "master"; br "feature/y"].

(* ------------------------------------------------------------------ *)
(** ** ListRepositories, listUserRepositories, convertRepositories *)

(** The fields of a go-github [Repository] read by [convertRepositories]. *)
Record GHRepository := mkGHRepository {
  ghrName : option string;
  ghrFullName : option string;
  ghrHTMLURL : option string;
  ghrDefaultBranch : option string;
  ghrArchived : option bool
}.

Fixpoint convertRepositories (repos : list GHRepository) : list Repository :=
  match repos with
  | [] => []
  | repo :: rest =>
      if getOr false (ghrArchived repo) then convertRepositories rest
      else mkRepository (getOr "" (ghrName repo)) (getOr "" (ghrFullName repo))
             (getOr "" (ghrHTMLURL repo)) (getOr "" (ghrDefaultBranch repo)) []
           :: convertRepositories rest
  end.

(** The pagination loop shared by the client's list calls:
    [for { items, resp, err := call(opt); if err != nil {...};
           all = append(all, items...); if resp.NextPage == 0 { break };
           opt.Page = resp.NextPage }].  [call page] returns the page's items
    and [resp.NextPage].  The loop need not terminate, so it is a relation
    from the current page and the items so far to the loop's outcome. *)
Inductive paginate {A E : Type} (call : Z -> (list A * Z) + E)
    : Z -> list A -> list A + E -> Prop :=
  | page_error page acc err :
      call page = inr err -> paginate call page acc (inr err)
  | page_last page acc items :
      call page = inl (items, 0) -> paginate call page acc (inl (acc ++ items))
  | page_next page acc items next res :
      call page = inl (items, next) -> next <> 0 ->
      paginate call next (acc ++ items) res -> paginate call page acc res.

Section ListRepositoriesDef.
Context {E : Type}.
(** [Repositories.ListByOrg] and [Repositories.List] for [target], one page,
    [PerPage: 100]. *)
Variable apiListByOrg : string -> Z -> (list GHRepository * Z) + E.
Variable apiListUser : string -> Z -> (list GHRepository * Z) + E.

Inductive listUserRepositories (target : string) : list Repository + E -> Prop :=
  | user_listed all :
      paginate (apiListUser target) 0 [] (inl all) ->
      listUserRepositories target (inl (convertRepositories all))
  | user_failed err :
      paginate (apiListUser target) 0 [] (inr err) ->
      listUserRepositories target (inr err).

(** Organisation first; the first failing organisation page (logged)
    switches to the user listing. *)
Inductive ListRepositories (target : string) : list Repository + E -> Prop :=
  | org_listed all :
      paginate (apiListByOrg target) 0 [] (inl all) ->
      ListRepositories target (inl (convertRepositories all))
  | org_failed err res :
      paginate (apiListByOrg target) 0 [] (inr err) ->
      listUserRepositories target res ->
      ListRepositories target res.
End ListRepositoriesDef.

(* ------------------------------------------------------------------ *)
(** ** OutputReport *)

Inductive OutputError (E : Type) : Type :=
  | WriteFailed (e : E)
  | UnsupportedFormat (format : string).
Arguments WriteFailed {E} e.
Arguments UnsupportedFormat {E} format.

Section OutputReportDef.
Context {E : Type}.
(** [r.outputJSON], [r.outputCSV], [r.outputText]: [nil] or an error. *)
Variables outputJSON outputCSV outputText : Report -> string -> unit + E.

Definition liftWrite (res : unit + E) : unit + OutputError E :=
  match res with inl u => inl u | inr e => inr (WriteFailed e) end.

Definition OutputReport (report : Report) (outputFile format : string)
    : unit + OutputError E :=
  if String.eqb format "json" then liftWrite (outputJSON report outputFile)
  else if String.eqb format "csv" then liftWrite (outputCSV report outputFile)
  else if String.eqb format "text" then liftWrite (outputText report outputFile)
  else inr (UnsupportedFormat format).
End OutputReportDef.

(* ------------------------------------------------------------------ *)
(** ** The records of outputCSV *)

(** [fmt.Sprintf("%d", n)]: decimal digits, a leading ['-'] when negative.
    [N.size_nat n + 1] bounds the number of decimal digits of [n]. *)
Definition digitChar (d : N) : ascii := ascii_of_N (48 + d).

Fixpoint decDigits (fuel : nat) (n : N) (acc : string) : string :=
  match fuel with
  | O => acc
  | S fuel' =>
      let acc' := String (digitChar (N.modulo n 10)) acc in
      if (N.div n 10 =? 0)%N then acc' else decDigits fuel' (N.div n 10) acc'
  end.

Definition formatN (n : N) : string := decDigits (S (N.size_nat n)) n "".

Definition formatInt (z : Z) : string :=
  if z <? 0 then String "-" (formatN (Z.to_N (- z))) else formatN (Z.to_N z).

Definition csvHeader : list string :=
  ["Author"; "Login"; "Email"; "Repository"; "Commits"; "Additions"; "Deletions"]%string.

Definition csvRecord (stats : ContributorStats) (repoName : string)
    (repoStats : RepositoryStats) : list string :=
  [CSName stats; CSLogin stats; CSEmail stats; repoName;
   formatInt (RSCommits repoStats); formatInt (RSAdditions repoStats);
   formatInt (RSDeletions repoStats)].

(** The zero value returned by [report.Summary[contributor]] for an absent
    key. *)
Definition zeroContributorStats : ContributorStats :=
  mkContributorStats "" "" "" 0 0 0 ∅.

(** The records passed to [writer.Write]: the header, then for each
    contributor in the order [contributors] (the result of [sort.Slice] on
    the keys, collected in map order) a record per entry of its
    Repositories map, in the map's iteration order [repoOrder]. *)
Definition csvRecords (summary : gmap string ContributorStats) (contributors : list string)
    (repoOrder : string -> list (string * RepositoryStats)) : list (list string) :=
  csvHeader ::
  flat_map (fun contributor =>
    let stats := getOr zeroContributorStats (summary !! contributor) in
    map (fun p => csvRecord stats p.1 p.2) (repoOrder contributor)) contributors.

(** A possible iteration: every key once, every map entry once. *)
Definition csvOrderValid (summary : gmap string ContributorStats) (contributors : list string)
    (repoOrder : string -> list (string * RepositoryStats)) : Prop :=
  contributors ≡ₚ (map_to_list summary).*1 /\
  forall k s, summary !! k = Some s -> repoOrder k ≡ₚ map_to_list (CSRepositories s).

(* ------------------------------------------------------------------ *)
(** ** What a summary entry holds, in terms of the traversed commits *)

Definition hasKey (k : string) (nc : string * Commit) : bool :=
  String.eqb (getAuthorKey (CAuthor (snd nc))) k.
Definition inRepo (fullName : string) (nc : string * Commit) : bool :=
  String.eqb (fst nc) fullName.
Definition sumAdd (l : list (string * Commit)) : Z :=
  fold_right (fun nc acc => Additions (CStats (snd nc)) + acc) 0 l.
Definition sumDel (l : list (string * Commit)) : Z :=
  fold_right (fun nc acc => Deletions (CStats (snd nc)) + acc) 0 l.

(** The repository of TestGenerateSummary (types_test.go). *)
Definition johnDoe : Author := mkAuthor "John Doe" "john@example.com" "johndoe".
Definition testRepos : list Repository :=
  [mkRepository "repo1" "owner/repo1" "" "" [mkBranch "main" ""
    [mkCommit "abc123" "Test commit" johnDoe 0 (mkCommitStats 10 5 15);
     mkCommit "def456" "Another commit" johnDoe 0 (mkCommitStats 20 3 23)]]].

(** Two authors with the same login ["x"] and different names. *)
Definition authorA : Author := mkAuthor "A" "" "x".
Definition authorB : Author := mkAuthor "B" "" "x".
Definition commitBy (sha : string) (a : Author) : Commit :=
  mkCommit sha "" a 0 (mkCommitStats 1 0 1).
Definition oneBranchRepo (fullName : string) (cs : list Commit) : Repository :=
  mkRepository fullName fullName "" "main" [mkBranch "main" "" cs].

(** A provider for the concrete runs below. *)
Definition branchesOk : string -> string -> list Branch + unit :=
  fun _ _ => inl [br "develop"; br "main"].
Definition branchesFail : string -> string -> list Branch + unit := fun _ _ => inr tt.
Definition commitsFail : string -> string -> string -> Z -> Z -> list Commit + unit :=
  fun _ _ _ _ _ => inr tt.
Definition badRepo : Repository := mkRepository "bad" "bad" "" "main" [].
Definition ownerOnlyRepo : Repository := mkRepository "" "owner/" "" "main" [].

(** Provider data for [ListCommits]: one commit "a" whose statistics are
    [additions], [deletions] and [total]. *)
Definition ghCommitWith (additions deletions total : Z) : GHRepositoryCommit :=
  mkGHRepositoryCommit (Some "a"%string)
    (Some (mkGHCommit (Some (mkGHCommitAuthor (Some "A"%string) None None)) None))
    None (Some (mkGHCommitStats (Some additions) (Some deletions) (Some total))).
Definition apiListWith (d : GHRepositoryCommit)
    : string -> string -> string -> Z -> Z -> list GHRepositoryCommit + unit :=
  fun _ _ _ _ _ => inl [d].
Definition apiGetWith (d : GHRepositoryCommit)
    : string -> string -> string -> GHRepositoryCommit + unit :=
  fun _ _ _ => inl d.

(** What an entry of the summary holds after the commits [F] of its key
    were traversed: Go [int] counts and sums over [F], per repository. *)
Definition statsInv (F : list (string * Commit)) (s : ContributorStats) : Prop :=
  TotalCommits s = wrap64 (Z.of_nat (List.length F)) /\
  TotalAdditions s = wrap64 (sumAdd F) /\
  TotalDeletions s = wrap64 (sumDel F) /\
  forall fullName,
    match CSRepositories s !! fullName with
    | None => List.filter (inRepo fullName) F = []
    | Some rs =>
        List.filter (inRepo fullName) F <> [] /\
        RSCommits rs = wrap64 (Z.of_nat (List.length (List.filter (inRepo fullName) F))) /\
        RSAdditions rs = wrap64 (sumAdd (List.filter (inRepo fullName) F)) /\
        RSDeletions rs = wrap64 (sumDel (List.filter (inRepo fullName) F))
    end.

(** The summary after traversing [l]: a key is present exactly when some
    commit of [l] has it; its Name/Email/Login come from the first such
    commit. *)
Definition summaryInv (l : list (string * Commit)) (m : gmap string ContributorStats) : Prop :=
  forall k,
    match m !! k with
    | None => List.filter (hasKey k) l = []
    | Some s =>
        (exists nc rest, List.filter (hasKey k) l = nc :: rest /\
           CSName s = AName (CAuthor (snd nc)) /\ CSEmail s = AEmail (CAuthor (snd nc)) /\
           CSLogin s = ALogin (CAuthor (snd nc))) /\
        statsInv (List.filter (hasKey k) l) s
    end.

(** The successes among worker outcomes, in order. *)
Definition successes {A B : Type} (l : list (A + B)) : list A :=
  omap (fun o => match o with inl a => Some a | inr _ => None end) l.

(** A decimal reader, to check what [formatInt] writes: an optional ['-']
    and the digits, read most significant first. *)
Definition digitVal (c : ascii) : N := (N_of_ascii c - 48)%N.

Fixpoint decValueAcc (s : string) (acc : N) : N :=
  match s with
  | EmptyString => acc
  | String c rest => decValueAcc rest (10 * acc + digitVal c)%N
  end.

Definition readInt (s : string) : Z :=
  match s with
  | String c rest =>
      if Ascii.eqb c "-"%char then - Z.of_N (decValueAcc rest 0)
      else Z.of_N (decValueAcc s 0)
  | EmptyString => 0
  end.

(** Provider data for [ListRepositories]. *)
Definition ghRepo (name : string) (archived : bool) : GHRepository :=
  mkGHRepository (Some name) (Some (String.append "o/" name)) None (Some "main"%string)
                 (Some archived).
Definition listFail : string -> Z -> (list GHRepository * Z) + unit := fun _ _ => inr tt.
Definition listTwoPages : string -> Z -> (list GHRepository * Z) + unit :=
  fun _ page => if page =? 0 then inl ([ghRepo "a" false], 1) else inl ([ghRepo "b" true], 0).

(** Provider data for [ListCommits]: commits "a" and "b"; only "a" has
    details. *)
Definition ghCommitSHA (sha : string) : GHRepositoryCommit :=
  mkGHRepositoryCommit (Some sha) None None None.
Definition apiListTwo : string -> string -> string -> Z -> Z -> list GHRepositoryCommit + unit :=
  fun _ _ _ _ _ => inl [ghCommitSHA "a"; ghCommitSHA "b"].
Definition apiGetOnlyA : string -> string -> string -> GHRepositoryCommit + unit :=
  fun _ _ sha => if String.eqb sha "a" then inl (ghCommitSHA "a") else inr tt.

(** A provider whose branches have no commits. *)
Definition commitsNone : string -> string -> string -> Z -> Z -> list Commit + unit :=
  fun _ _ _ _ _ => inl [].

(** A summary with two contributors, for the CSV records. *)
Definition janeDoe : Author := mkAuthor "Jane" "jane@example.com" "".
Definition twoAuthorSummary : gmap string ContributorStats :=
  generateSummary [oneBranchRepo "o/a" [commitBy "1" johnDoe; commitBy "2" janeDoe];
                   oneBranchRepo "o/b" [commitBy "3" johnDoe]].
Definition repoOrderOf (summary : gmap string ContributorStats) (k : string)
    : list (string * RepositoryStats) :=
  match summary !! k with Some s => map_to_list (CSRepositories s) | None => [] end.

(* ================================================================== *)
(** * Theorems *)

(* ------------------------------------------------------------------ *)
(** ** Branch selector *)

Lemma selectImportant_eq (bs : list Branch) n sel m :
  selectImportant bs n sel m =
  match firstNamed bs n with
  | Some b => (sel ++ [b], <[BName b := true]> m)
  | None => (sel, m)
  end.
Proof.
  induction bs as [|b bs IH]; simpl; [done|].
  unfold firstNamed in *; simpl. by destruct (String.eqb (BName b) n).
Qed.

Lemma selectDefault_eq (bs : list Branch) n sel m :
  selectDefault bs n sel m =
  match firstNamed bs n with
  | Some b => (sel ++ [b], <[BName b := true]> m)
  | None => (sel, m)
  end.
Proof.
  induction bs as [|b bs IH]; simpl; [done|].
  unfold firstNamed in *; simpl. by destruct (String.eqb (BName b) n).
Qed.

(** [branchMap] records exactly the names of the selected branches. *)
Definition mapTracks (m : gmap string bool) (sel : list Branch) : Prop :=
  forall n, mapGet m n = existsb (fun b => String.eqb (BName b) n) sel.

Lemma mapTracks_empty : mapTracks ∅ [].
Proof. intros n. unfold mapGet. by rewrite lookup_empty. Qed.

Lemma mapTracks_insert m sel b :
  mapTracks m sel -> mapTracks (<[BName b := true]> m) (sel ++ [b]).
Proof.
  intros H n. unfold mapGet. rewrite lookup_insert, existsb_app. simpl.
  case_decide as Hn.
  - subst. rewrite String.eqb_refl. by rewrite orb_true_r.
  - apply String.eqb_neq in Hn. rewrite Hn, orb_false_r. apply H.
Qed.

Lemma selectAllImportant_eq (bs : list Branch) names sel m :
  mapTracks m sel ->
  fst (selectAllImportant bs names sel m) = fold_left (includeIfAbsent bs) names sel.
Proof.
  revert sel m. induction names as [|n names IH]; intros sel m Hm; simpl; [done|].
  unfold includeIfAbsent at 2. rewrite <- (Hm n).
  destruct (mapGet m n) eqn:Hg; simpl.
  - by apply IH.
  - rewrite selectImportant_eq. destruct (firstNamed bs n) as [b|] eqn:Hf; simpl.
    + apply IH. by apply mapTracks_insert.
    + rewrite app_nil_r. by apply IH.
Qed.

Lemma select_refines (bs : list Branch) d :
  selectBranchesToProcess bs d = selectSpec bs d.
Proof.
  unfold selectBranchesToProcess, selectSpec. rewrite selectDefault_eq.
  destruct (firstNamed bs d) as [b|] eqn:Hf.
  - exact (selectAllImportant_eq bs _ _ _ (mapTracks_insert ∅ [] b mapTracks_empty)).
  - exact (selectAllImportant_eq bs _ _ _ mapTracks_empty).
Qed.

Lemma firstNamed_some (bs : list Branch) n b :
  firstNamed bs n = Some b -> In b bs /\ BName b = n.
Proof.
  unfold firstNamed. intros H. apply find_some in H as [Hin Heq].
  split; [done|]. by apply String.eqb_eq.
Qed.

Lemma includeIfAbsent_fold_in (bs : list Branch) names acc b :
  In b (fold_left (includeIfAbsent bs) names acc) ->
  In b acc \/ exists n, In n names /\ firstNamed bs n = Some b.
Proof.
  revert acc. induction names as [|n names IH]; intros acc Hin; simpl in *; [by left|].
  apply IH in Hin as [Hin|(n' & Hn' & Hf)]; [|right; eauto].
  unfold includeIfAbsent in Hin. destruct (existsb _ acc); [by left|].
  apply in_app_or in Hin as [Hin|Hin]; [by left|].
  destruct (firstNamed bs n) eqn:Hf; simpl in Hin; [|done].
  destruct Hin as [<-|[]]. right. eauto.
Qed.

Lemma includeIfAbsent_fold_length (bs : list Branch) names acc :
  (List.length (fold_left (includeIfAbsent bs) names acc)
     <= List.length acc + List.length names)%nat.
Proof.
  revert acc. induction names as [|n names IH]; intros acc; simpl; [lia|].
  etransitivity; [apply IH|]. unfold includeIfAbsent.
  destruct (existsb _ acc); [lia|]. rewrite length_app.
  destruct (firstNamed bs n); simpl; lia.
Qed.

Lemma existsb_name_false (acc : list Branch) n :
  existsb (fun b => String.eqb (BName b) n) acc = false -> n ∉ map BName acc.
Proof.
  intros H Hin. apply list_elem_of_In, in_map_iff in Hin as (b & Hb & Hin).
  assert (existsb (fun b => String.eqb (BName b) n) acc = true) as Ht.
  { apply existsb_exists. exists b. split; [done|]. by apply String.eqb_eq. }
  congruence.
Qed.

Lemma includeIfAbsent_fold_nodup (bs : list Branch) names acc :
  NoDup (map BName acc) ->
  NoDup (map BName (fold_left (includeIfAbsent bs) names acc)).
Proof.
  revert acc. induction names as [|n names IH]; intros acc Hnd; simpl; [done|].
  apply IH. unfold includeIfAbsent.
  destruct (existsb _ acc) eqn:He; [done|].
  destruct (firstNamed bs n) as [b|] eqn:Hf; simpl; [|by rewrite app_nil_r].
  apply firstNamed_some in Hf as [_ Hb]. rewrite map_app. simpl.
  apply NoDup_app. split; [done|]. split; [|apply NoDup_singleton].
  intros x Hx Hy. apply list_elem_of_singleton in Hy. subst x.
  rewrite Hb in Hx. by apply (existsb_name_false acc n).
Qed.

(** C4: [selectBranchesToProcess] equals the policy of section 4.1: the
    first branch named after the default branch first, then, for each name
    of main, master, develop, dev, staging, production not already included,
    the first branch with that name, in that order; every selected branch is
    named after the default branch or a priority name.  The result is a
    plain list: an empty selection is not an error. *)
Theorem select_policy (branches : list Branch) (defaultBranch : string) :
  selectBranchesToProcess branches defaultBranch = selectSpec branches defaultBranch /\
  (forall b, In b (selectBranchesToProcess branches defaultBranch) ->
             BName b = defaultBranch \/ In (BName b) importantBranches).
Proof.
  split; [apply select_refines|]. intros b Hin.
  rewrite select_refines in Hin. unfold selectSpec in Hin.
  apply includeIfAbsent_fold_in in Hin as [Hin|(n & Hn & Hf)].
  - left. destruct (firstNamed branches defaultBranch) as [b'|] eqn:Hf;
      simpl in Hin; [|done].
    destruct Hin as [<-|[]]. by apply firstNamed_some in Hf as [_ ->].
  - right. apply firstNamed_some in Hf as [_ ->]. done.
Qed.

(** C5 as stated: on [feature/x, main, develop, master, feature/y] with
    default [main] the output is NOT [main, develop, master]. *)
Lemma select_example_claimed_order_fails :
  selectBranchesToProcess c5Input "main" <> [br "main"; br "develop"; br "master"].
Proof. vm_compute. congruence. Qed.

(** C5 (amended): on [feature/x, main, develop, master, feature/y] with
    default [main] the output is exactly [main, master, develop]: the default
    first, then the priority list order main, master, develop. *)
Theorem select_example :
  selectBranchesToProcess c5Input "main" = [br "main"; br "master"; br "develop"].
Proof. reflexivity. Qed.

(** C10: the selection has at most 7 branches, pairwise distinct names, and
    consists of elements of the input. *)
Theorem select_bounded_distinct_sub (branches : list Branch) (defaultBranch : string) :
  (List.length (selectBranchesToProcess branches defaultBranch) <= 7)%nat /\
  NoDup (map BName (selectBranchesToProcess branches defaultBranch)) /\
  (forall b, In b (selectBranchesToProcess branches defaultBranch) -> In b branches).
Proof.
  rewrite select_refines. unfold selectSpec. split; [|split].
  - etransitivity; [apply includeIfAbsent_fold_length|].
    destruct (firstNamed branches defaultBranch); simpl; lia.
  - apply includeIfAbsent_fold_nodup.
    destruct (firstNamed branches defaultBranch); simpl;
      [apply NoDup_singleton|constructor].
  - intros b Hin. apply includeIfAbsent_fold_in in Hin as [Hin|(n & _ & Hf)].
    + destruct (firstNamed branches defaultBranch) as [b'|] eqn:Hf;
        simpl in Hin; [|done].
      destruct Hin as [<-|[]]. by apply firstNamed_some in Hf as [? _].
    + by apply firstNamed_some in Hf as [? _].
Qed.

(* ------------------------------------------------------------------ *)
(** ** Author key *)

(** C3: [getAuthorKey] is the login when non-empty, else the email when
    non-empty, else the display name. *)
Theorem getAuthorKey_spec (author : Author) :
  (ALogin author <> ""%string /\ getAuthorKey author = ALogin author) \/
  (ALogin author = ""%string /\ AEmail author <> ""%string /\
     getAuthorKey author = AEmail author) \/
  (ALogin author = ""%string /\ AEmail author = ""%string /\
     getAuthorKey author = AName author).
Proof.
  unfold getAuthorKey.
  destruct (String.eqb (ALogin author) "") eqn:Hl; simpl.
  - apply String.eqb_eq in Hl.
    destruct (String.eqb (AEmail author) "") eqn:He; simpl.
    + apply String.eqb_eq in He. right; right. done.
    + apply String.eqb_neq in He. right; left. done.
  - apply String.eqb_neq in Hl. left. done.
Qed.

(* ------------------------------------------------------------------ *)
(** ** Go int arithmetic *)

Lemma wrap64_add_l x y : wrap64 (wrap64 x + y) = wrap64 (x + y).
Proof.
  unfold wrap64.
  replace ((x + 2 ^ 63) mod 2 ^ 64 - 2 ^ 63 + y + 2 ^ 63)
    with ((x + 2 ^ 63) mod 2 ^ 64 + y) by ring.
  rewrite Zplus_mod_idemp_l. f_equal. f_equal. ring.
Qed.

Lemma wrap64_add_r x y : wrap64 (x + wrap64 y) = wrap64 (x + y).
Proof. rewrite Z.add_comm, wrap64_add_l. f_equal. ring. Qed.

Lemma iadd_assoc a b c : iadd a (iadd b c) = iadd (iadd a b) c.
Proof. unfold iadd. rewrite wrap64_add_r, wrap64_add_l. f_equal. ring. Qed.

Lemma iadd_right_comm x a b : iadd (iadd x a) b = iadd (iadd x b) a.
Proof. unfold iadd. rewrite !wrap64_add_l. f_equal. ring. Qed.

Lemma iadd_0_l_r x a : iadd x (iadd 0 a) = iadd x a.
Proof. unfold iadd. rewrite wrap64_add_r. done. Qed.

(* ------------------------------------------------------------------ *)
(** ** Aggregator: the per-repository cross-check *)

Lemma sumBy_empty proj : sumBy proj ∅ = 0.
Proof. unfold sumBy. by rewrite map_fold_empty. Qed.

Lemma sumBy_insert proj (m : gmap string RepositoryStats) k v :
  sumBy proj (<[k := v]> m) = iadd (sumBy proj (delete k m)) (proj v).
Proof.
  unfold sumBy. rewrite <- insert_delete_eq.
  rewrite map_fold_insert_L; [done| |by rewrite lookup_delete_eq].
  intros. apply iadd_right_comm.
Qed.

Lemma sumBy_delete proj (m : gmap string RepositoryStats) k v :
  m !! k = Some v -> sumBy proj m = iadd (sumBy proj (delete k m)) (proj v).
Proof.
  intros Hk. unfold sumBy. rewrite (map_fold_delete_L _ _ k v); [done| |done].
  intros. apply iadd_right_comm.
Qed.

(** Adding [a] to a total and to the bucket [k] of its map keeps
    the total equal to the sum of the buckets. *)
Lemma sumBy_bump proj (upd : RepositoryStats -> RepositoryStats) a total
    (m : gmap string RepositoryStats) k :
  proj zeroRepositoryStats = 0 ->
  (forall rs, proj (upd rs) = iadd (proj rs) a) ->
  total = sumBy proj m ->
  iadd total a =
  sumBy proj (<[k := upd (match m !! k with Some rs => rs | None => zeroRepositoryStats end)]> m).
Proof.
  intros Hz Hu ->. rewrite sumBy_insert, Hu.
  destruct (m !! k) as [rs|] eqn:Hk.
  - rewrite (sumBy_delete proj m k rs Hk). apply eq_sym, iadd_assoc.
  - rewrite delete_id by done. rewrite Hz. apply eq_sym, iadd_0_l_r.
Qed.

Lemma seedStats_consistent author : statsConsistent (seedStats author).
Proof. unfold statsConsistent, sumCommits, sumAdditions, sumDeletions; simpl.
  by rewrite !sumBy_empty. Qed.

Lemma summaryStep_consistent fullName (summary : gmap string ContributorStats) commit :
  map_Forall (fun _ => statsConsistent) summary ->
  map_Forall (fun _ => statsConsistent) (summaryStep fullName summary commit).
Proof.
  intros Hall. unfold summaryStep.
  apply map_Forall_insert_2; [|done].
  set (stats := match summary !! getAuthorKey (CAuthor commit) with
                | Some s => s | None => seedStats (CAuthor commit) end).
  assert (statsConsistent stats) as [Hc [Ha Hd]].
  { subst stats. destruct (summary !! _) eqn:Hl;
      [by apply (Hall _ _ Hl)|apply seedStats_consistent]. }
  unfold statsConsistent, sumCommits, sumAdditions, sumDeletions; simpl.
  pose (upd := fun rs => mkRepositoryStats (iinc (RSCommits rs))
                 (iadd (RSAdditions rs) (Additions (CStats commit)))
                 (iadd (RSDeletions rs) (Deletions (CStats commit)))).
  split; [|split].
  - by apply (sumBy_bump RSCommits upd 1).
  - by apply (sumBy_bump RSAdditions upd).
  - by apply (sumBy_bump RSDeletions upd).
Qed.

Lemma fold_summaryStep_commits fullName (cs : list Commit) m :
  fold_left (summaryStep fullName) cs m =
  fold_left summaryStepPair (map (pair fullName) cs) m.
Proof. revert m. induction cs as [|c cs IH]; intros m; simpl; [done|]. apply IH. Qed.

Lemma fold_summaryBranch fullName (bs : list Branch) m :
  fold_left (summaryBranch fullName) bs m =
  fold_left summaryStepPair
    (flat_map (fun branch => map (pair fullName) (BCommits branch)) bs) m.
Proof.
  revert m. induction bs as [|b bs IH]; intros m; simpl; [done|].
  rewrite fold_left_app, <- IH. unfold summaryBranch at 2.
  by rewrite fold_summaryStep_commits.
Qed.

Lemma generateSummary_flat (repos : list Repository) m :
  fold_left summaryRepo repos m = fold_left summaryStepPair (commitsOf repos) m.
Proof.
  revert m. induction repos as [|r rs IH]; intros m; simpl; [done|].
  rewrite fold_left_app, <- IH. unfold summaryRepo at 2.
  by rewrite fold_summaryBranch.
Qed.

Lemma fold_summaryStepPair_consistent (l : list (string * Commit)) m :
  map_Forall (fun _ => statsConsistent) m ->
  map_Forall (fun _ => statsConsistent) (fold_left summaryStepPair l m).
Proof.
  revert m. induction l as [|nc l IH]; intros m Hm; simpl; [done|].
  apply IH. by apply summaryStep_consistent.
Qed.

(** C1: in every summary built by [generateSummary], each contributor's
    TotalCommits, TotalAdditions and TotalDeletions equal the sums (in Go
    [int] arithmetic) of Commits, Additions and Deletions over its
    Repositories map. *)
Theorem generateSummary_totals_consistent (repos : list Repository) (key : string)
    (stats : ContributorStats) :
  generateSummary repos !! key = Some stats -> statsConsistent stats.
Proof.
  intros Hk. unfold generateSummary in Hk. rewrite generateSummary_flat in Hk.
  refine (fold_summaryStepPair_consistent (commitsOf repos) ∅ _ key stats Hk).
  apply map_Forall_empty.
Qed.

(** Witness for C1, on the data of TestGenerateSummary. *)
Lemma generateSummary_totals_consistent_witness :
  exists stats, generateSummary testRepos !! "johndoe"%string = Some stats /\
                statsConsistent stats.
Proof.
  eexists. split; [reflexivity|].
  apply (generateSummary_totals_consistent testRepos "johndoe"). reflexivity.
Defined.

(* ------------------------------------------------------------------ *)
(** ** Aggregator: order independence *)

Lemma countsOf_step (m : gmap string ContributorStats) nc :
  countsOf <$> summaryStepPair m nc = countsStep (countsOf <$> m) nc.
Proof.
  destruct nc as [fullName commit].
  unfold summaryStepPair, summaryStep, countsStep; simpl.
  rewrite fmap_insert, lookup_fmap.
  by destruct (m !! getAuthorKey (CAuthor commit)).
Qed.

Lemma countsStep_comm (m : gmap string Counts) nc1 nc2 :
  countsStep (countsStep m nc1) nc2 = countsStep (countsStep m nc2) nc1.
Proof.
  destruct nc1 as [n1 c1], nc2 as [n2 c2]. unfold countsStep; simpl.
  destruct (decide (getAuthorKey (CAuthor c1) = getAuthorKey (CAuthor c2))) as [Hk|Hk].
  - rewrite Hk, !lookup_insert_eq, !insert_insert_eq. f_equal.
    generalize (match m !! getAuthorKey (CAuthor c2) with
                | Some v => v | None => (0, 0, 0, ∅) end).
    intros [[[tc ta] td] R]; simpl.
    rewrite (iadd_right_comm ta), (iadd_right_comm td). f_equal.
    destruct (decide (n1 = n2)) as [<-|Hn].
    + rewrite !lookup_insert_eq, !insert_insert_eq. f_equal.
      generalize (match R !! n1 with Some rs => rs | None => zeroRepositoryStats end).
      intros [x y z]; simpl. by rewrite (iadd_right_comm y), (iadd_right_comm z).
    + rewrite !lookup_insert_ne by congruence. by apply insert_insert_ne.
  - rewrite !lookup_insert_ne by congruence. apply insert_insert_ne. congruence.
Qed.

Lemma fold_left_perm_comm {A B} (f : A -> B -> A) :
  (forall a x y, f (f a x) y = f (f a y) x) ->
  forall l1 l2, Permutation l1 l2 -> forall a, fold_left f l1 a = fold_left f l2 a.
Proof.
  intros Hc l1 l2 HP. induction HP as [|x l1 l2 _ IH|x y l|l1 l2 l3 _ IH1 _ IH2];
    intros a; simpl; auto.
  - by rewrite Hc.
  - by rewrite IH1, IH2.
Qed.

Lemma countsOf_fold (l : list (string * Commit)) m :
  countsOf <$> fold_left summaryStepPair l m = fold_left countsStep l (countsOf <$> m).
Proof.
  revert m. induction l as [|nc l IH]; intros m; simpl; [done|].
  by rewrite IH, countsOf_step.
Qed.

(** C2 as stated fails: swapping two commits of one branch that share the
    key ["x"] changes the seeded Name of the contributor ["x"]. *)
Lemma generateSummary_order_dependent_seed :
  generateSummary [oneBranchRepo "o/r" [commitBy "1" authorA; commitBy "2" authorB]] <>
  generateSummary [oneBranchRepo "o/r" [commitBy "2" authorB; commitBy "1" authorA]].
Proof.
  intros H. apply (f_equal (fun m => option_map CSName (m !! "x"%string))) in H.
  vm_compute in H. congruence.
Qed.

(** C2 (amended): for any two repository lists whose traversals visit the
    same commits (with their repositories) in permuted order, the summaries
    have the same keys with the same TotalCommits, TotalAdditions,
    TotalDeletions and Repositories map; only the seeded Name/Email/Login
    (taken from the first commit seen for a key) may differ. *)
Theorem generateSummary_counts_order_independent (repos1 repos2 : list Repository) :
  Permutation (commitsOf repos1) (commitsOf repos2) ->
  countsOf <$> generateSummary repos1 = countsOf <$> generateSummary repos2.
Proof.
  intros HP. unfold generateSummary. rewrite !generateSummary_flat, !countsOf_fold.
  apply fold_left_perm_comm; [apply countsStep_comm|done].
Qed.

(** Witness for C2: two repositories given in both orders. *)
Lemma generateSummary_counts_order_independent_witness :
  countsOf <$> generateSummary [oneBranchRepo "o/a" [commitBy "1" authorA];
                                oneBranchRepo "o/b" [commitBy "2" authorB]] =
  countsOf <$> generateSummary [oneBranchRepo "o/b" [commitBy "2" authorB];
                                oneBranchRepo "o/a" [commitBy "1" authorA]].
Proof.
  apply generateSummary_counts_order_independent. simpl. constructor.
Defined.

(* ------------------------------------------------------------------ *)
(** ** strings.Split *)

Lemma splitOn_length sep (s : string) :
  List.length (splitOn sep s) = S (countChar sep s).
Proof.
  induction s as [|a s IH]; simpl; [done|].
  destruct (Ascii.eqb a sep); simpl; [by rewrite IH|].
  destruct (splitOn sep s) as [|h t]; simpl in *; [done|]. done.
Qed.

Lemma splitOn_none sep (s : string) : countChar sep s = O -> splitOn sep s = [s].
Proof.
  induction s as [|a s IH]; simpl; [done|].
  destruct (Ascii.eqb a sep); [done|]. intros H. by rewrite IH.
Qed.

Lemma splitOn_one (owner repoName : string) :
  countChar slash owner = O -> countChar slash repoName = O ->
  splitOn slash (String.append owner (String slash repoName)) = [owner; repoName].
Proof.
  intros Ho Hn. induction owner as [|a owner IH]; simpl in *.
  - by rewrite splitOn_none.
  - destruct (Ascii.eqb a slash); [done|]. by rewrite IH.
Qed.

(* ------------------------------------------------------------------ *)
(** ** Repository processor and fetch coordinator *)

Section ReporterFacts.
Context {E : Type}.
Variable clientListBranches : string -> string -> list Branch + E.
Variable clientListCommits : string -> string -> string -> Z -> Z -> list Commit + E.
Variables since until : Z.

Local Abbreviation procRepo := (processRepository clientListBranches clientListCommits since until).
Local Abbreviation procParsed := (processParsed clientListBranches clientListCommits since until).
Local Abbreviation procBranches := (processBranches clientListCommits since until).
Local Abbreviation outcome := (workerOutcome clientListBranches clientListCommits since until).
Local Abbreviation cstep := (coordStep clientListBranches clientListCommits since until).

(** C9: the name check only counts separators.  A full name yields the
    invalid-name error exactly when it does not contain exactly one ['/'];
    a name [owner/repoName] with no other ['/'], either part possibly
    empty, is processed with exactly that owner and short name. *)
Theorem processRepository_name_check (repo : Repository) :
  ((exists s, procRepo repo = inr (InvalidName s)) <->
     countChar slash (RFullName repo) <> 1%nat) /\
  (forall owner repoName,
     countChar slash owner = O -> countChar slash repoName = O ->
     RFullName repo = String.append owner (String slash repoName) ->
     procRepo repo = procParsed owner repoName repo).
Proof.
  split.
  - unfold processRepository.
    pose proof (splitOn_length slash (RFullName repo)) as Hl.
    destruct (splitOn slash (RFullName repo)) as [|o [|n [|x t]]]; simpl in Hl.
    + lia.
    + split; [lia|]. intros _. eexists. reflexivity.
    + split; [|lia]. intros [s Hs]. unfold processParsed in Hs.
      by destruct (clientListBranches o n).
    + split; [lia|]. intros _. eexists. reflexivity.
  - intros owner repoName Ho Hn Hf. unfold processRepository.
    by rewrite Hf, splitOn_one.
Qed.

Lemma processBranches_omap owner repoName (bs acc : list Branch) :
  procBranches owner repoName bs acc =
  acc ++ omap (fun b => match clientListCommits owner repoName (BName b) since until with
                        | inl cs => Some (setCommits b cs)
                        | inr _ => None
                        end) bs.
Proof.
  revert acc. induction bs as [|b bs IH]; intros acc; simpl; [by rewrite app_nil_r|].
  destruct (clientListCommits owner repoName (BName b) since until); simpl;
    rewrite IH; [rewrite <- app_assoc; reflexivity|done].
Qed.

(** C8: once the branch list is obtained, [processRepository] succeeds; its
    branches are exactly the selected branches whose commit fetch
    succeeded, in selection order and with the fetched commits; when every
    selected branch's fetch fails it still succeeds, with no branches. *)
Theorem processRepository_branch_failures (repo : Repository) (owner repoName : string)
    (branches : list Branch) :
  splitOn slash (RFullName repo) = [owner; repoName] ->
  clientListBranches owner repoName = inl branches ->
  procRepo repo =
    inl (setBranches repo
      (omap (fun b => match clientListCommits owner repoName (BName b) since until with
                      | inl cs => Some (setCommits b cs)
                      | inr _ => None
                      end)
            (selectBranchesToProcess branches (RDefaultBranch repo)))) /\
  (Forall (fun b => exists e, clientListCommits owner repoName (BName b) since until = inr e)
          (selectBranchesToProcess branches (RDefaultBranch repo)) ->
   procRepo repo = inl (setBranches repo [])).
Proof.
  intros Hs Hb.
  assert (procRepo repo =
    inl (setBranches repo (procBranches owner repoName
           (selectBranchesToProcess branches (RDefaultBranch repo)) []))) as Hp.
  { unfold processRepository. rewrite Hs.
    unfold processParsed. by rewrite Hb. }
  rewrite processBranches_omap in Hp. simpl in Hp. split; [done|].
  intros Hall. rewrite Hp. do 2 f_equal. revert Hall.
  generalize (selectBranchesToProcess branches (RDefaultBranch repo)) as l.
  intros l Hall. induction Hall as [|b bs [e He] _ IH]; simpl; [done|].
  by rewrite He.
Qed.

Local Abbreviation outcomes := (coordOutcomes clientListBranches clientListCommits since until).

Lemma coordStep_outcomes nw (c c' : Coord) :
  cstep nw c c' -> outcomes c' ≡ₚ outcomes c.
Proof.
  intros Hs. destruct Hs as [r q inf rc ec pr er _|q l1 r l2 rc ec pr er r' Ho
    |q l1 r l2 rc ec pr er e Ho|q inf r rc ec pr er|q inf rc e ec pr er];
    unfold coordOutcomes; simpl; rewrite ?map_app; simpl; rewrite ?Ho.
  - solve_Permutation.
  - solve_Permutation.
  - solve_Permutation.
  - solve_Permutation.
  - solve_Permutation.
Qed.

Lemma coordStep_inflight nw (c c' : Coord) :
  cstep nw c c' -> (List.length (inFlight c) <= nw)%nat ->
  (List.length (inFlight c') <= nw)%nat.
Proof.
  intros Hs. destruct Hs; simpl; rewrite ?length_app; simpl; lia.
Qed.

Lemma coordStep_measure nw (c c' : Coord) :
  cstep nw c c' -> (coordMeasure c' < coordMeasure c)%nat.
Proof.
  intros Hs. destruct Hs; unfold coordMeasure; simpl; rewrite ?length_app; simpl; lia.
Qed.

Lemma coord_rtc_inv nw (target : list (Repository + (string * RepoError E))%type)
    (c c' : Coord) :
  rtc (cstep nw) c c' ->
  outcomes c ≡ₚ target -> (List.length (inFlight c) <= nw)%nat ->
  outcomes c' ≡ₚ target /\ (List.length (inFlight c') <= nw)%nat.
Proof.
  induction 1 as [c|c1 c2 c3 Hs _ IH]; intros Hp Hl; [done|].
  apply IH.
  - by rewrite (coordStep_outcomes _ _ _ Hs).
  - by apply (coordStep_inflight _ _ _ Hs).
Qed.

Lemma coord_reachable_inv (repos : list Repository) (c : Coord) :
  rtc (cstep (numWorkers repos)) (coordInit repos) c ->
  outcomes c ≡ₚ map outcome repos /\
  (List.length (inFlight c) <= numWorkers repos)%nat.
Proof.
  intros Hr. apply (coord_rtc_inv _ _ _ _ Hr); [done|]. simpl. lia.
Qed.

(** C6: the fetch coordinator drops no repository and per-repository
    failures never abort the batch.  Every step consumes work, so every run
    is finite; a reachable state that is not done can always step; and in
    the done state the successes [processedRepos] and the failures [errors]
    are, together, a permutation of the outcomes of [processRepository] on
    the input repositories (one outcome per repository), so their lengths
    add up to the number of input repositories. *)
Theorem GenerateReport_no_drop (repos : list Repository) :
  (forall c c', cstep (numWorkers repos) c c' -> (coordMeasure c' < coordMeasure c)%nat) /\
  (forall c, rtc (cstep (numWorkers repos)) (coordInit repos) c ->
     coordDone c \/ exists c', cstep (numWorkers repos) c c') /\
  (forall c, rtc (cstep (numWorkers repos)) (coordInit repos) c -> coordDone c ->
     (List.length (processedRepos c) + List.length (errors c) = List.length repos)%nat /\
     map inl (processedRepos c) ++ map inr (errors c) ≡ₚ map outcome repos).
Proof.
  split; [by apply coordStep_measure|]. split.
  - intros c Hr. destruct (coord_reachable_inv repos c Hr) as [Hp Hl].
    apply Permutation_length in Hp. unfold coordOutcomes in Hp.
    rewrite !length_app, !length_map in Hp.
    destruct c as [q inf rc ec pr er]; simpl in *.
    destruct q as [|r q].
    + destruct inf as [|x l].
      * destruct rc as [|r rc]; [destruct ec as [|e ec]|].
        -- left. done.
        -- right. eexists. apply step_recv_error.
        -- right. eexists. apply step_recv_result.
      * right. destruct (outcome x) as [r'|e] eqn:Ho.
        -- eexists. change (x :: l) with ([] ++ x :: l). by apply step_finish_ok.
        -- eexists. change (x :: l) with ([] ++ x :: l). by apply step_finish_err.
    + right. destruct (decide (List.length inf < numWorkers repos)%nat) as [Hlt|Hge].
      * eexists. by apply step_take.
      * destruct inf as [|x l].
        -- exfalso. simpl in Hge. unfold numWorkers, maxWorkers in Hge. simpl in Hp. lia.
        -- destruct (outcome x) as [r'|e] eqn:Ho.
           ++ eexists. change (x :: l) with ([] ++ x :: l). by apply step_finish_ok.
           ++ eexists. change (x :: l) with ([] ++ x :: l). by apply step_finish_err.
  - intros c Hr (Hq & Hi & Hrc & Hec).
    destruct (coord_reachable_inv repos c Hr) as [Hp _].
    unfold coordOutcomes in Hp. rewrite Hq, Hi, Hrc, Hec in Hp. simpl in Hp.
    rewrite !app_nil_r in Hp. split; [|done].
    apply Permutation_length in Hp. rewrite length_app, !length_map in Hp. done.
Qed.

End ReporterFacts.

(** Witness for C9: ["owner/"] passes the check with an empty short name. *)
Lemma processRepository_name_check_witness :
  processRepository branchesOk commitsFail 0 0 ownerOnlyRepo =
  processParsed branchesOk commitsFail 0 0 "owner" "" ownerOnlyRepo.
Proof.
  apply (proj2 (processRepository_name_check branchesOk commitsFail 0 0 ownerOnlyRepo)
           "owner" ""); reflexivity.
Defined.

(** Witness for C8: every selected branch fails, the repository succeeds
    with no branches. *)
Lemma processRepository_branch_failures_witness :
  processRepository branchesOk commitsFail 0 0 ownerOnlyRepo =
  inl (setBranches ownerOnlyRepo []).
Proof.
  apply (proj2 (processRepository_branch_failures branchesOk commitsFail 0 0
                  ownerOnlyRepo "owner" "" [br "develop"; br "main"]
                  eq_refl eq_refl)).
  apply Forall_forall. intros b _. exists tt. reflexivity.
Defined.

(** Witness for C6: a run on one repository with a malformed name. *)
Lemma GenerateReport_no_drop_witness :
  (List.length (@nil Repository) + List.length [("bad"%string, @InvalidName unit "bad")]
     = List.length [badRepo])%nat /\
  map inl (@nil Repository) ++ map inr [("bad"%string, @InvalidName unit "bad")]
    ≡ₚ map (workerOutcome branchesFail commitsFail 0 0) [badRepo].
Proof.
  apply (proj2 (proj2 (GenerateReport_no_drop branchesFail commitsFail 0 0 [badRepo]))
           (mkCoord [] [] [] [] [] [("bad"%string, InvalidName "bad")])).
  - eapply rtc_l.
    { apply step_take. vm_compute. lia. }
    eapply rtc_l.
    { change [badRepo] with ([] ++ badRepo :: []). apply step_finish_err. reflexivity. }
    eapply rtc_l.
    { apply step_recv_error. }
    apply rtc_refl.
  - repeat split.
Defined.

(* ------------------------------------------------------------------ *)
(** ** ListCommits *)

Section GitHubClientFacts.
Context {E : Type}.
Variable apiListCommits : string -> string -> string -> Z -> Z -> list GHRepositoryCommit + E.
Variable apiGetCommit : string -> string -> string -> GHRepositoryCommit + E.

Lemma convertCommits_stats owner repo (l : list GHRepositoryCommit) c :
  In c (convertCommits apiGetCommit owner repo l) ->
  exists d, apiGetCommit owner repo (CSHA c) = inl d /\ CStats c = ghStats d.
Proof.
  induction l as [|x l IH]; simpl; [done|].
  destruct (apiGetCommit owner repo (getOr "" (grSHA x))) as [d|] eqn:Hd; [|done].
  intros [<-|Hin]; [|by apply IH]. simpl. eauto.
Qed.

(** C7 (amended): [ListCommits] copies each commit's statistics unchanged
    from the provider's detailed commit fetched for its SHA; so Total equals
    Additions + Deletions (Go [int] addition) for every returned commit when
    the provider's statistics satisfy it, and only then. *)
Theorem ListCommits_stats_copied (owner repo branch : string) (since until : Z)
    (cs : list Commit) :
  ListCommits apiListCommits apiGetCommit owner repo branch since until = inl cs ->
  (forall c, In c cs ->
     exists d, apiGetCommit owner repo (CSHA c) = inl d /\ CStats c = ghStats d) /\
  ((forall sha d, apiGetCommit owner repo sha = inl d ->
      Total (ghStats d) = iadd (Additions (ghStats d)) (Deletions (ghStats d))) ->
   forall c, In c cs -> Total (CStats c) = iadd (Additions (CStats c)) (Deletions (CStats c))).
Proof.
  unfold ListCommits. destruct (apiListCommits owner repo branch since until) as [l|];
    intros H; [|done]. injection H as <-.
  assert (forall c, In c (convertCommits apiGetCommit owner repo l) ->
     exists d, apiGetCommit owner repo (CSHA c) = inl d /\ CStats c = ghStats d) as Hs.
  { intros c. apply convertCommits_stats. }
  split; [done|]. intros Hp c Hin.
  destruct (Hs c Hin) as (d & Hd & ->). by apply (Hp (CSHA c)).
Qed.

End GitHubClientFacts.

(** C7 as stated fails: a provider commit with additions 1, deletions 1 and
    total 5 is returned with those statistics, and 5 <> 1 + 1. *)
Lemma ListCommits_total_not_enforced :
  exists cs, ListCommits (apiListWith (ghCommitWith 1 1 5)) (apiGetWith (ghCommitWith 1 1 5))
               "o" "r" "main" 0 0 = inl cs /\
  exists c, In c cs /\ Total (CStats c) <> Additions (CStats c) + Deletions (CStats c).
Proof.
  eexists. split; [reflexivity|]. eexists. split; [left; reflexivity|]. vm_compute. congruence.
Qed.

(** Witness for C7 (amended): a provider commit with consistent statistics. *)
Lemma ListCommits_stats_copied_witness :
  Total (ghStats (ghCommitWith 10 5 15)) =
  iadd (Additions (ghStats (ghCommitWith 10 5 15))) (Deletions (ghStats (ghCommitWith 10 5 15))).
Proof.
  refine (proj2 (ListCommits_stats_copied (apiListWith (ghCommitWith 10 5 15))
                   (apiGetWith (ghCommitWith 10 5 15)) "o" "r" "main" 0 0
                   _ eq_refl) _ _ (or_introl eq_refl)).
  intros sha d Hd. injection Hd as <-. reflexivity.
Defined.

(* ------------------------------------------------------------------ *)
(** ** ListRepositories and convertRepositories *)

(** [convertRepositories] keeps the repositories that are not archived, in
    order, converted with the getters' zero values and with no branches. *)
Theorem convertRepositories_filter (repos : list GHRepository) :
  convertRepositories repos =
    map (fun repo => mkRepository (getOr "" (ghrName repo)) (getOr "" (ghrFullName repo))
                       (getOr "" (ghrHTMLURL repo)) (getOr "" (ghrDefaultBranch repo)) [])
        (List.filter (fun repo => negb (getOr false (ghrArchived repo))) repos) /\
  Forall (fun r => RBranches r = []) (convertRepositories repos) /\
  (List.length (convertRepositories repos) <= List.length repos)%nat.
Proof.
  induction repos as [|repo rest (IHf & IHb & IHl)]; simpl; [by repeat constructor|].
  destruct (getOr false (ghrArchived repo)); simpl.
  - split; [done|]. split; [done|]. lia.
  - rewrite IHf. split; [done|]. split.
    + constructor; [done|]. by rewrite <- IHf.
    + rewrite <- IHf. lia.
Qed.

Lemma paginate_det {A E} (call : Z -> (list A * Z) + E) page acc r1 :
  paginate call page acc r1 -> forall r2, paginate call page acc r2 -> r1 = r2.
Proof.
  induction 1 as [page acc err Hc|page acc items Hc|page acc items next res Hc Hn _ IH];
    intros r2 H2; inversion H2 as [? ? ? Hc2|? ? ? Hc2|? ? ? ? ? Hc2 ? Hr2]; subst;
    rewrite Hc in Hc2; try congruence.
  injection Hc2 as <- <-. by apply IH.
Qed.

Lemma paginate_prefix {A E} (call : Z -> (list A * Z) + E) page acc all :
  paginate call page acc (inl all) -> exists rest, all = acc ++ rest.
Proof.
  remember (inl all) as r eqn:Hr. intros H. revert all Hr.
  induction H as [page acc err Hc|page acc items Hc|page acc items next res Hc Hn _ IH];
    intros all Hr; [done| |].
  - injection Hr as <-. eauto.
  - destruct (IH all Hr) as [rest ->]. exists (items ++ rest). by rewrite app_assoc.
Qed.

Lemma paginate_last_eq {A E} (call : Z -> (list A * Z) + E) page acc items all :
  call page = inl (items, 0) -> all = acc ++ items -> paginate call page acc (inl all).
Proof. intros Hc ->. by apply page_last. Qed.

Section ListRepositoriesFacts.
Context {E : Type}.
Variable apiListByOrg : string -> Z -> (list GHRepository * Z) + E.
Variable apiListUser : string -> Z -> (list GHRepository * Z) + E.

Local Abbreviation listRepos := (ListRepositories apiListByOrg apiListUser).
Local Abbreviation listUser := (listUserRepositories apiListUser).

(** When the organisation listing succeeds, its pages (and not the user
    listing) are the result. *)
Theorem ListRepositories_org_first (target : string) (all : list GHRepository)
    (res : list Repository + E) :
  paginate (apiListByOrg target) 0 [] (inl all) ->
  listRepos target res -> res = inl (convertRepositories all).
Proof.
  intros Ho Hr. destruct Hr as [all' Ho'|err res Ho' _].
  - pose proof (paginate_det _ _ _ _ Ho' _ Ho) as Heq. by injection Heq as ->.
  - pose proof (paginate_det _ _ _ _ Ho' _ Ho). congruence.
Qed.

(** When any page of the organisation listing fails, the result is exactly
    that of the user listing: the organisation pages fetched before the
    failure are discarded, and the error itself is not returned. *)
Theorem ListRepositories_org_failure_falls_back (target : string) (err : E)
    (res : list Repository + E) :
  paginate (apiListByOrg target) 0 [] (inr err) ->
  listRepos target res <-> listUser target res.
Proof.
  intros Ho. split.
  - intros [all' Ho'|err' res' _ Hu]; [|done].
    pose proof (paginate_det _ _ _ _ Ho' _ Ho). congruence.
  - intros Hu. by apply (org_failed _ _ _ err).
Qed.

(** [ListRepositories] fails only when both listings fail, with the error
    of the user listing; a success holds converted repositories of one
    complete listing, with no branches. *)
Theorem ListRepositories_outcome (target : string) (res : list Repository + E) :
  listRepos target res ->
  match res with
  | inr err => (exists err0, paginate (apiListByOrg target) 0 [] (inr err0)) /\
               paginate (apiListUser target) 0 [] (inr err)
  | inl repos =>
      Forall (fun r => RBranches r = []) repos /\
      exists all, repos = convertRepositories all /\
        (paginate (apiListByOrg target) 0 [] (inl all) \/
         ((exists err0, paginate (apiListByOrg target) 0 [] (inr err0)) /\
          paginate (apiListUser target) 0 [] (inl all)))
  end.
Proof.
  intros [all Ho|err0 r Ho Hu].
  - split; [apply (convertRepositories_filter all)|]. eauto.
  - destruct Hu as [all Hu|err Hu].
    + split; [apply (convertRepositories_filter all)|]. eauto 6.
    + eauto.
Qed.

End ListRepositoriesFacts.

(** Witness: the organisation listing fails on its first page; the user
    listing has two pages, the second with an archived repository. *)
Lemma ListRepositories_org_failure_falls_back_witness :
  ListRepositories listFail listTwoPages "o" (inl (convertRepositories [ghRepo "a" false; ghRepo "b" true])) <->
  listUserRepositories listTwoPages "o" (inl (convertRepositories [ghRepo "a" false; ghRepo "b" true])).
Proof.
  apply (ListRepositories_org_failure_falls_back listFail listTwoPages "o" tt).
  apply page_error. reflexivity.
Defined.

Lemma ListRepositories_org_first_witness :
  @inl (list Repository) unit (convertRepositories [ghRepo "a" false; ghRepo "b" true]) =
  inl (convertRepositories [ghRepo "a" false; ghRepo "b" true]).
Proof.
  apply (ListRepositories_org_first listTwoPages listFail "o" [ghRepo "a" false; ghRepo "b" true]).
  - eapply page_next; [reflexivity|lia|]. by eapply paginate_last_eq.
  - apply org_listed. eapply page_next; [reflexivity|lia|]. by eapply paginate_last_eq.
Defined.

Lemma ListRepositories_outcome_witness :
  Forall (fun r => RBranches r = []) [mkRepository "a" "o/a" "" "main" []] /\
  exists all, [mkRepository "a" "o/a" "" "main" []] = convertRepositories all /\
    (paginate (listFail "o") 0 [] (inl all) \/
     ((exists err0, paginate (listFail "o") 0 [] (inr err0)) /\
      paginate (listTwoPages "o") 0 [] (inl all))).
Proof.
  apply (ListRepositories_outcome listFail listTwoPages "o"
           (inl [mkRepository "a" "o/a" "" "main" []])).
  apply (org_failed _ _ _ tt).
  - apply page_error. reflexivity.
  - change [mkRepository "a" "o/a" "" "main" []]
      with (convertRepositories ([] ++ [ghRepo "a" false] ++ [ghRepo "b" true])).
    apply user_listed. eapply page_next; [reflexivity|lia|]. by eapply paginate_last_eq.
Defined.

(* ------------------------------------------------------------------ *)
(** ** ListCommits: which commits are returned *)

Lemma filter_length_le {A} (f : A -> bool) (l : list A) :
  (List.length (List.filter f l) <= List.length l)%nat.
Proof. induction l as [|x l IH]; simpl; [lia|]. destruct (f x); simpl; lia. Qed.

Section ListCommitsFacts.
Context {E : Type}.
Variable apiListCommits : string -> string -> string -> Z -> Z -> list GHRepositoryCommit + E.
Variable apiGetCommit : string -> string -> string -> GHRepositoryCommit + E.

Local Abbreviation detailed owner repo := (fun commit : GHRepositoryCommit =>
  match apiGetCommit owner repo (getOr "" (grSHA commit)) with inl _ => true | inr _ => false end).

Lemma convertCommits_shas owner repo (l : list GHRepositoryCommit) :
  map CSHA (convertCommits apiGetCommit owner repo l) =
  map (fun commit => getOr "" (grSHA commit)) (List.filter (detailed owner repo) l).
Proof.
  induction l as [|x l IH]; simpl; [done|].
  destruct (apiGetCommit owner repo (getOr "" (grSHA x))); simpl; by rewrite IH.
Qed.


End ListCommitsFacts.


(* ------------------------------------------------------------------ *)
(** ** generateSummary: what each entry holds *)

Lemma sumAdd_app (l1 l2 : list (string * Commit)) : sumAdd (l1 ++ l2) = sumAdd l1 + sumAdd l2.
Proof. induction l1 as [|x l1 IH]; simpl; [done|]. unfold sumAdd in *. simpl. rewrite IH. lia. Qed.

Lemma sumDel_app (l1 l2 : list (string * Commit)) : sumDel (l1 ++ l2) = sumDel l1 + sumDel l2.
Proof. induction l1 as [|x l1 IH]; simpl; [done|]. unfold sumDel in *. simpl. rewrite IH. lia. Qed.

Lemma filter_snoc {A} (f : A -> bool) (l : list A) x :
  List.filter f (l ++ [x]) = List.filter f l ++ (if f x then [x] else []).
Proof. rewrite List.filter_app. simpl. by destruct (f x). Qed.

Lemma statsInv_seed author : statsInv [] (seedStats author).
Proof.
  unfold statsInv, seedStats. simpl. split; [reflexivity|]. split; [reflexivity|].
  split; [reflexivity|]. intros fn. by rewrite lookup_empty.
Qed.

Lemma statsInv_step (F : list (string * Commit)) s nc :
  statsInv F s ->
  statsInv (F ++ [nc])
    (mkContributorStats (CSName s) (CSEmail s) (CSLogin s)
       (iinc (TotalCommits s))
       (iadd (TotalAdditions s) (Additions (CStats (snd nc))))
       (iadd (TotalDeletions s) (Deletions (CStats (snd nc))))
       (<[fst nc := mkRepositoryStats
           (iinc (RSCommits (match CSRepositories s !! fst nc with
                             | Some rs => rs | None => zeroRepositoryStats end)))
           (iadd (RSAdditions (match CSRepositories s !! fst nc with
                               | Some rs => rs | None => zeroRepositoryStats end))
                 (Additions (CStats (snd nc))))
           (iadd (RSDeletions (match CSRepositories s !! fst nc with
                               | Some rs => rs | None => zeroRepositoryStats end))
                 (Deletions (CStats (snd nc))))]> (CSRepositories s))).
Proof.
  intros (Hc & Ha & Hd & Hr). unfold statsInv; simpl.
  unfold iinc, iadd. rewrite Hc, Ha, Hd, !wrap64_add_l, length_app, sumAdd_app, sumDel_app.
  split; [f_equal; simpl; lia|]. split; [f_equal; unfold sumAdd; simpl; lia|].
  split; [f_equal; unfold sumDel; simpl; lia|].
  intros fn. rewrite lookup_insert. case_decide as Hfn.
  - subst fn. rewrite filter_snoc.
    assert (inRepo (fst nc) nc = true) as Ht by apply String.eqb_refl. rewrite Ht.
    specialize (Hr (fst nc)). destruct (CSRepositories s !! fst nc) as [rs|] eqn:Hl.
    + destruct Hr as (Hne & H1 & H2 & H3). simpl.
      rewrite H1, H2, H3, !wrap64_add_l, length_app, sumAdd_app, sumDel_app.
      split; [intros He; apply app_eq_nil in He as [_ He]; discriminate|].
      split; [f_equal; simpl; lia|]. split; [f_equal; unfold sumAdd; simpl; lia|].
      f_equal; unfold sumDel; simpl; lia.
    + rewrite Hr. simpl. split; [discriminate|].
      split; [reflexivity|]. split; f_equal; lia.
  - rewrite filter_snoc.
    assert (inRepo fn nc = false) as Hf by (by apply String.eqb_neq).
    rewrite Hf, app_nil_r. apply Hr.
Qed.

Lemma summaryInv_step (l : list (string * Commit)) m nc :
  summaryInv l m -> summaryInv (l ++ [nc]) (summaryStepPair m nc).
Proof.
  intros H k. unfold summaryStepPair, summaryStep. rewrite lookup_insert.
  case_decide as Hk.
  - subst k. rewrite filter_snoc.
    assert (hasKey (getAuthorKey (CAuthor (snd nc))) nc = true) as Ht by apply String.eqb_refl.
    rewrite Ht.
    specialize (H (getAuthorKey (CAuthor (snd nc)))).
    destruct (m !! getAuthorKey (CAuthor (snd nc))) as [s|] eqn:Hm.
    + destruct H as ((nc0 & rest & Hf & Hn & He & Hl) & Hs). split.
      * exists nc0, (rest ++ [nc]). rewrite Hf. simpl. auto.
      * by apply statsInv_step.
    + rewrite H. simpl. split; [exists nc, []; auto|].
      apply (statsInv_step [] (seedStats (CAuthor (snd nc))) nc (statsInv_seed _)).
  - rewrite filter_snoc.
    assert (hasKey k nc = false) as Hf by (by apply String.eqb_neq).
    rewrite Hf, app_nil_r. apply H.
Qed.

Lemma summaryInv_fold (l : list (string * Commit)) :
  summaryInv l (fold_left summaryStepPair l ∅).
Proof.
  induction l as [|nc l IH] using rev_ind.
  - intros k. simpl. by rewrite lookup_empty.
  - rewrite fold_left_app. simpl. by apply summaryInv_step.
Qed.

Lemma generateSummary_inv (repos : list Repository) :
  summaryInv (commitsOf repos) (generateSummary repos).
Proof. unfold generateSummary. rewrite generateSummary_flat. apply summaryInv_fold. Qed.

(** The summary's keys are exactly the author keys of the traversed
    commits. *)
Theorem generateSummary_keys (repos : list Repository) (k : string) :
  is_Some (generateSummary repos !! k) <->
  exists nc, In nc (commitsOf repos) /\ getAuthorKey (CAuthor (snd nc)) = k.
Proof.
  pose proof (generateSummary_inv repos k) as H.
  destruct (generateSummary repos !! k) as [s|].
  - split; [intros _|eauto].
    destruct H as ((nc & rest & Hf & _) & _).
    assert (In nc (List.filter (hasKey k) (commitsOf repos))) as Hin by (rewrite Hf; left; done).
    apply List.filter_In in Hin as [Hin Hk]. exists nc. split; [done|]. by apply String.eqb_eq.
  - split; [intros [? ?]; discriminate|]. intros (nc & Hin & Hk).
    assert (In nc (List.filter (hasKey k) (commitsOf repos))) as Hin'.
    { apply List.filter_In. split; [done|]. by apply String.eqb_eq. }
    by rewrite H in Hin'.
Qed.

(** An entry's Name, Email and Login come from the first commit of its key
    in traversal order; its totals are the commit count and the sums of
    additions and deletions over the key's commits, wrapped to Go [int]. *)
Theorem generateSummary_entry (repos : list Repository) (k : string) (s : ContributorStats) :
  generateSummary repos !! k = Some s ->
  (exists nc rest, List.filter (hasKey k) (commitsOf repos) = nc :: rest /\
     CSName s = AName (CAuthor (snd nc)) /\ CSEmail s = AEmail (CAuthor (snd nc)) /\
     CSLogin s = ALogin (CAuthor (snd nc))) /\
  TotalCommits s = wrap64 (Z.of_nat (List.length (List.filter (hasKey k) (commitsOf repos)))) /\
  TotalAdditions s = wrap64 (sumAdd (List.filter (hasKey k) (commitsOf repos))) /\
  TotalDeletions s = wrap64 (sumDel (List.filter (hasKey k) (commitsOf repos))).
Proof.
  intros Hs. pose proof (generateSummary_inv repos k) as H. rewrite Hs in H.
  destruct H as [Hseed (Hc & Ha & Hd & _)]. auto.
Qed.

(** An entry's Repositories map has a bucket exactly for the repositories
    holding a commit of its key, with the count and sums over those
    commits, wrapped to Go [int]. *)
Theorem generateSummary_buckets (repos : list Repository) (k : string) (s : ContributorStats)
    (fullName : string) :
  generateSummary repos !! k = Some s ->
  (is_Some (CSRepositories s !! fullName) <->
   exists nc, In nc (commitsOf repos) /\ getAuthorKey (CAuthor (snd nc)) = k /\
              fst nc = fullName) /\
  (forall rs, CSRepositories s !! fullName = Some rs ->
   RSCommits rs = wrap64 (Z.of_nat (List.length
     (List.filter (inRepo fullName) (List.filter (hasKey k) (commitsOf repos))))) /\
   RSAdditions rs = wrap64 (sumAdd
     (List.filter (inRepo fullName) (List.filter (hasKey k) (commitsOf repos)))) /\
   RSDeletions rs = wrap64 (sumDel
     (List.filter (inRepo fullName) (List.filter (hasKey k) (commitsOf repos))))).
Proof.
  intros Hs. pose proof (generateSummary_inv repos k) as H. rewrite Hs in H.
  destruct H as [_ (_ & _ & _ & Hr)]. specialize (Hr fullName).
  assert (forall nc, In nc (List.filter (inRepo fullName)
                              (List.filter (hasKey k) (commitsOf repos))) <->
          In nc (commitsOf repos) /\ getAuthorKey (CAuthor (snd nc)) = k /\
          fst nc = fullName) as Hin.
  { intros nc. rewrite !List.filter_In. unfold hasKey, inRepo.
    rewrite !String.eqb_eq. tauto. }
  destruct (CSRepositories s !! fullName) as [rs|].
  - destruct Hr as (Hne & H1 & H2 & H3). split.
    + split; [intros _|eauto].
      destruct (List.filter (inRepo fullName) (List.filter (hasKey k) (commitsOf repos)))
        as [|nc l] eqn:Hf; [done|].
      exists nc. apply Hin. by left.
    + intros rs' Hrs. injection Hrs as <-. auto.
  - split; [|discriminate]. split; [intros [? ?]; discriminate|].
    intros (nc & Hnc). apply Hin in Hnc. by rewrite Hr in Hnc.
Qed.

(** Witnesses, on the data of TestGenerateSummary. *)
Lemma generateSummary_entry_witness :
  exists s, generateSummary testRepos !! "johndoe"%string = Some s /\
    TotalCommits s = wrap64 (Z.of_nat (List.length
      (List.filter (hasKey "johndoe") (commitsOf testRepos)))).
Proof.
  eexists. split; [reflexivity|].
  apply (proj1 (proj2 (generateSummary_entry testRepos "johndoe" _ eq_refl))).
Defined.

Lemma generateSummary_buckets_witness :
  exists s, generateSummary testRepos !! "johndoe"%string = Some s /\
    (is_Some (CSRepositories s !! "owner/repo1"%string) <->
     exists nc, In nc (commitsOf testRepos) /\ getAuthorKey (CAuthor (snd nc)) = "johndoe"%string /\
                fst nc = "owner/repo1"%string).
Proof.
  eexists. split; [reflexivity|].
  apply (proj1 (generateSummary_buckets testRepos "johndoe" _ "owner/repo1" eq_refl)).
Defined.

(* ------------------------------------------------------------------ *)
(** ** GenerateReport and processRepository *)

Lemma successes_split {A B} (a : list A) (b : list B) :
  successes (map inl a ++ map inr b) = a.
Proof.
  unfold successes. rewrite omap_app.
  assert (forall l : list B,
    omap (fun o : A + B => match o with inl a => Some a | inr _ => None end) (map inr l) = [])
    as Hb by (induction l; simpl; done).
  rewrite Hb, app_nil_r. induction a as [|x a IH]; simpl; [done|]. by f_equal.
Qed.

Lemma select_facts (bs : list Branch) (d : string) :
  (List.length (selectBranchesToProcess bs d) <= 7)%nat /\
  NoDup (map BName (selectBranchesToProcess bs d)) /\
  (forall b, In b (selectBranchesToProcess bs d) ->
     In b bs /\ (BName b = d \/ In (BName b) importantBranches)).
Proof.
  rewrite select_refines. unfold selectSpec. split; [|split].
  - etransitivity; [apply includeIfAbsent_fold_length|].
    destruct (firstNamed bs d); simpl; lia.
  - apply includeIfAbsent_fold_nodup.
    destruct (firstNamed bs d); simpl; [apply NoDup_singleton|constructor].
  - intros b Hin. apply includeIfAbsent_fold_in in Hin as [Hin|(n & Hn & Hf)].
    + destruct (firstNamed bs d) as [b'|] eqn:Hf; simpl in Hin; [|done].
      destruct Hin as [<-|[]]. apply firstNamed_some in Hf as [? ->]. auto.
    + apply firstNamed_some in Hf as [? <-]. auto.
Qed.

Section ReportFacts.
Context {E : Type}.
Variable clientListBranches : string -> string -> list Branch + E.
Variable clientListCommits : string -> string -> string -> Z -> Z -> list Commit + E.
Variables since until : Z.

Local Abbreviation procRepo := (processRepository clientListBranches clientListCommits since until).
Local Abbreviation outcome := (workerOutcome clientListBranches clientListCommits since until).
Local Abbreviation cstep := (coordStep clientListBranches clientListCommits since until).
Local Abbreviation report := (GenerateReport clientListBranches clientListCommits since until).

Local Abbreviation fetched owner repoName := (fun b : Branch =>
  match clientListCommits owner repoName (BName b) since until with
  | inl cs => Some (setCommits b cs)
  | inr _ => None
  end).

Lemma omap_fetched_names owner repoName (l : list Branch) :
  map BName (omap (fetched owner repoName) l) `sublist_of` map BName l.
Proof.
  induction l as [|b l IH]; simpl; [done|].
  destruct (clientListCommits owner repoName (BName b) since until); simpl.
  - by apply sublist_skip.
  - by apply sublist_cons.
Qed.

Lemma omap_fetched_in owner repoName (l : list Branch) b :
  In b (omap (fetched owner repoName) l) ->
  exists b0 cs, In b0 l /\ clientListCommits owner repoName (BName b0) since until = inl cs /\
                b = setCommits b0 cs.
Proof.
  induction l as [|b0 l IH]; simpl; [done|].
  destruct (clientListCommits owner repoName (BName b0) since until) as [cs|] eqn:Hc; simpl.
  - intros [<-|Hin]; [exists b0, cs; auto|].
    destruct (IH Hin) as (b1 & cs1 & ? & ? & ?). exists b1, cs1. auto.
  - intros Hin. destruct (IH Hin) as (b1 & cs1 & ? & ? & ?). exists b1, cs1. auto.
Qed.

(** A processed repository keeps its other fields; its branches are at most
    7 fetched branches of the provider with distinct names, each named
    after the default branch or a priority name, carrying the commits
    fetched for it. *)
Theorem processRepository_result (repo r : Repository) :
  procRepo repo = inl r ->
  RName r = RName repo /\ RFullName r = RFullName repo /\ RURL r = RURL repo /\
  RDefaultBranch r = RDefaultBranch repo /\
  exists owner repoName branches,
    splitOn slash (RFullName repo) = [owner; repoName] /\
    clientListBranches owner repoName = inl branches /\
    (List.length (RBranches r) <= 7)%nat /\ NoDup (map BName (RBranches r)) /\
    forall b, In b (RBranches r) ->
      (BName b = RDefaultBranch repo \/ In (BName b) importantBranches) /\
      exists b0 cs, In b0 branches /\
        clientListCommits owner repoName (BName b0) since until = inl cs /\
        b = setCommits b0 cs.
Proof.
  unfold processRepository.
  destruct (splitOn slash (RFullName repo)) as [|o [|n [|x t]]] eqn:Hs; try discriminate.
  unfold processParsed. destruct (clientListBranches o n) as [bs|e] eqn:Hb; [|discriminate].
  intros H. injection H as <-. rewrite processBranches_omap. simpl.
  split; [done|]. split; [done|]. split; [done|]. split; [done|].
  exists o, n, bs. split; [done|]. split; [done|].
  destruct (select_facts bs (RDefaultBranch repo)) as (Hlen & Hnd & Hin).
  pose proof (omap_fetched_names o n (selectBranchesToProcess bs (RDefaultBranch repo))) as Hsub.
  split; [|split].
  - apply sublist_length in Hsub. rewrite !length_map in Hsub. lia.
  - by apply (sublist_NoDup _ _ Hnd Hsub).
  - intros b Hb'. apply omap_fetched_in in Hb' as (b0 & cs & Hb0 & Hc & ->).
    destruct (Hin b0 Hb0) as [Hbs Hname]. split; [done|]. exists b0, cs. auto.
Qed.

Lemma coord_progress (repos : list Repository) (c : Coord) :
  rtc (cstep (numWorkers repos)) (coordInit repos) c ->
  coordDone c \/ exists c', cstep (numWorkers repos) c c'.
Proof.
  intros Hr. destruct (coord_reachable_inv clientListBranches clientListCommits since until
                         repos c Hr) as [Hp Hl].
  apply Permutation_length in Hp. unfold coordOutcomes in Hp.
  rewrite !length_app, !length_map in Hp.
  destruct c as [q inf rc ec pr er]; simpl in *.
  assert (forall x l, exists c', cstep (numWorkers repos) (mkCoord q (x :: l) rc ec pr er) c')
    as Hfin.
  { intros x l. change (x :: l) with ([] ++ x :: l).
    destruct (outcome x) as [r'|e] eqn:Ho; eexists.
    - by apply step_finish_ok.
    - by apply step_finish_err. }
  destruct q as [|r q].
  - destruct inf as [|x l]; [|right; apply Hfin].
    destruct rc as [|r rc]; [destruct ec as [|e ec]|].
    + left. done.
    + right. eexists. apply step_recv_error.
    + right. eexists. apply step_recv_result.
  - right. destruct (decide (List.length inf < numWorkers repos)%nat) as [Hlt|Hge].
    + eexists. by apply step_take.
    + destruct inf as [|x l]; [|apply Hfin].
      exfalso. simpl in Hge. unfold numWorkers, maxWorkers in Hge. simpl in Hp. lia.
Qed.

Lemma coord_terminates (repos : list Repository) :
  exists c, rtc (cstep (numWorkers repos)) (coordInit repos) c /\ coordDone c.
Proof.
  assert (forall n c, (coordMeasure c <= n)%nat ->
            rtc (cstep (numWorkers repos)) (coordInit repos) c ->
            exists c', rtc (cstep (numWorkers repos)) (coordInit repos) c' /\ coordDone c')
    as Hn.
  { induction n as [|n IH]; intros c Hm Hr;
      (destruct (coord_progress repos c Hr) as [Hd|(c' & Hs)]; [by exists c|]);
      pose proof (coordStep_measure clientListBranches clientListCommits since until _ _ _ Hs);
      [lia|].
    apply (IH c'); [lia|]. by eapply rtc_r; [exact Hr|exact Hs]. }
  by apply (Hn (coordMeasure (@coordInit E repos)) (coordInit repos)).
Qed.

Lemma GenerateReport_inl (target : string) (listed : list Repository + E) (rep : Report) :
  report target listed (inl rep) ->
  exists repos, listed = inl repos /\ Target rep = target /\ RPeriod rep = mkPeriod since until /\
    Repositories rep ≡ₚ successes (map outcome repos) /\
    Summary rep = generateSummary (Repositories rep).
Proof.
  intros H. inversion H as [|repos c Hl Hr Hd]; subst. exists repos. simpl.
  split; [done|]. split; [done|]. split; [done|]. split; [|done].
  destruct (coord_reachable_inv clientListBranches clientListCommits since until
              repos c Hr) as [Hp _].
  destruct Hd as (Hq & Hi & Hrc & Hec). unfold coordOutcomes in Hp.
  rewrite Hq, Hi, Hrc, Hec in Hp. simpl in Hp. rewrite !app_nil_r in Hp.
  rewrite <- (successes_split (processedRepos c) (errors c)).
  unfold successes. by rewrite Hp.
Qed.

(** [GenerateReport] returns the listing error unchanged, or a report for
    [target] and the period [since]..[until] whose repositories are, up to
    order, the successful outcomes of [processRepository] on the listed
    repositories, and whose summary is computed from them. *)
Theorem GenerateReport_outcome (target : string) (listed : list Repository + E)
    (res : Report + E) :
  report target listed res ->
  match listed with
  | inr err => res = inr err
  | inl repos =>
      exists rep, res = inl rep /\ Target rep = target /\ RPeriod rep = mkPeriod since until /\
        Repositories rep ≡ₚ successes (map outcome repos) /\
        Summary rep = generateSummary (Repositories rep)
  end.
Proof.
  intros H. destruct res as [rep|err].
  - destruct (GenerateReport_inl target listed rep H) as (repos & -> & ?). eauto.
  - inversion H; subst. done.
Qed.

(** [GenerateReport] always returns: for every outcome of the listing, some
    run of the worker pool completes and yields a result. *)
Theorem GenerateReport_total (target : string) (listed : list Repository + E) :
  exists res, report target listed res.
Proof.
  destruct listed as [repos|err].
  - destruct (coord_terminates repos) as (c & Hr & Hd).
    eexists. by apply (report_done _ _ _ _ _ _ repos c).
  - eexists. by apply report_list_failed.
Qed.


End ReportFacts.

Lemma badRepo_run :
  rtc (coordStep branchesFail commitsFail 0 0 (numWorkers [badRepo])) (coordInit [badRepo])
      (mkCoord [] [] [] [] [] [("bad"%string, InvalidName "bad")]).
Proof.
  eapply rtc_l.
  { apply step_take. vm_compute. lia. }
  eapply rtc_l.
  { change [badRepo] with ([] ++ badRepo :: []). apply step_finish_err. reflexivity. }
  eapply rtc_l; [apply step_recv_error|]. apply rtc_refl.
Qed.

Lemma badRepo_report :
  GenerateReport branchesFail commitsFail 0 0 "t" (inl [badRepo])
    (inl (mkReport "t" (mkPeriod 0 0) [] (generateSummary []))).
Proof.
  apply (report_done _ _ _ _ _ _ [badRepo] (mkCoord [] [] [] [] [] [("bad"%string, InvalidName "bad")]));
    [done|apply badRepo_run|repeat split].
Qed.

(** Witness: one repository with a malformed name; the report is empty. *)
Lemma GenerateReport_outcome_witness :
  exists rep, @inl Report unit (mkReport "t" (mkPeriod 0 0) [] (generateSummary [])) = inl rep /\
    Target rep = "t"%string /\ RPeriod rep = mkPeriod 0 0 /\
    Repositories rep ≡ₚ successes (map (workerOutcome branchesFail commitsFail 0 0) [badRepo]) /\
    Summary rep = generateSummary (Repositories rep).
Proof.
  exact (GenerateReport_outcome branchesFail commitsFail 0 0 "t" (inl [badRepo]) _ badRepo_report).
Defined.


(** Witness: a repository whose branches main and develop have no
    commits. *)
Lemma processRepository_result_witness :
  exists r, processRepository branchesOk commitsNone 0 0 (oneBranchRepo "o/r" []) = inl r /\
    RName r = "o/r"%string.
Proof.
  eexists. split; [reflexivity|].
  eapply proj1.
  apply (processRepository_result branchesOk commitsNone 0 0 (oneBranchRepo "o/r" [])).
  reflexivity.
Defined.

(* ------------------------------------------------------------------ *)
(** ** OutputReport *)

Section OutputFacts.
Context {E : Type}.
Variables outputJSON outputCSV outputText : Report -> string -> unit + E.

Local Abbreviation output := (OutputReport outputJSON outputCSV outputText).

(** The format is matched case-sensitively against "json", "csv" and
    "text"; any other format is refused with an error naming it, and a
    writer's error is reported only for the format that selected it. *)
Theorem OutputReport_dispatch (report : Report) (outputFile format : string) :
  (forall f, output report outputFile format = inr (UnsupportedFormat f) <->
     f = format /\ ~ In format ["json"; "csv"; "text"]%string) /\
  (forall e, output report outputFile format = inr (WriteFailed e) ->
     (format = "json"%string /\ outputJSON report outputFile = inr e) \/
     (format = "csv"%string /\ outputCSV report outputFile = inr e) \/
     (format = "text"%string /\ outputText report outputFile = inr e)).
Proof.
  unfold OutputReport.
  destruct (String.eqb format "json") eqn:Hj;
    [apply String.eqb_eq in Hj; subst format|apply String.eqb_neq in Hj].
  { split.
    - intros f. split; [by destruct (outputJSON report outputFile)|].
      intros [_ Hn]. exfalso. apply Hn. by left.
    - intros e. destruct (outputJSON report outputFile) as [|e'] eqn:Ho; [done|].
      intros He. injection He as <-. by left. }
  destruct (String.eqb format "csv") eqn:Hc;
    [apply String.eqb_eq in Hc; subst format|apply String.eqb_neq in Hc].
  { split.
    - intros f. split; [by destruct (outputCSV report outputFile)|].
      intros [_ Hn]. exfalso. apply Hn. right. by left.
    - intros e. destruct (outputCSV report outputFile) as [|e'] eqn:Ho; [done|].
      intros He. injection He as <-. right. by left. }
  destruct (String.eqb format "text") eqn:Ht;
    [apply String.eqb_eq in Ht; subst format|apply String.eqb_neq in Ht].
  { split.
    - intros f. split; [by destruct (outputText report outputFile)|].
      intros [_ Hn]. exfalso. apply Hn. right. right. by left.
    - intros e. destruct (outputText report outputFile) as [|e'] eqn:Ho; [done|].
      intros He. injection He as <-. right. by right. }
  split; [|discriminate].
  intros f. split.
  - intros He. injection He as <-. split; [done|]. intros [?|[?|[?|[]]]]; congruence.
  - intros [-> _]. done.
Qed.

End OutputFacts.

(* ------------------------------------------------------------------ *)
(** ** The records of outputCSV *)

Lemma flat_map_perm_pointwise {A B} (f g : A -> list B) (l : list A) :
  (forall x, In x l -> f x ≡ₚ g x) -> flat_map f l ≡ₚ flat_map g l.
Proof.
  induction l as [|x l IH]; intros H; simpl; [done|].
  apply Permutation_app; [apply H; by left|]. apply IH. intros y Hy. apply H. by right.
Qed.

Lemma length_flat_map_sum {A B} (f : A -> list B) (l : list A) :
  List.length (flat_map f l) = sum_list (map (fun x => List.length (f x)) l).
Proof. induction l as [|x l IH]; simpl; [done|]. by rewrite length_app, IH. Qed.

Lemma flat_map_fst {A B C} (f : A -> list C) (l : list (A * B)) :
  flat_map f (l.*1) = flat_map (fun p => f p.1) l.
Proof. induction l as [|x l IH]; [done|]. rewrite fmap_cons. cbn [flat_map]. by rewrite IH. Qed.

Lemma elem_of_keys (m : gmap string ContributorStats) k :
  In k ((map_to_list m).*1) -> exists s, m !! k = Some s.
Proof.
  intros Hk. apply list_elem_of_In, list_elem_of_fmap in Hk as ([k' s] & -> & Hin).
  exists s. by apply elem_of_map_to_list in Hin.
Qed.

Section CsvFacts.
Variable summary : gmap string ContributorStats.

Local Abbreviation recordsOf repoOrder := (fun contributor : string =>
  map (fun p : string * RepositoryStats =>
         csvRecord (getOr zeroContributorStats (summary !! contributor)) p.1 p.2)
      (repoOrder contributor)).

Local Abbreviation canonical := (recordsOf (fun k =>
  map_to_list (CSRepositories (getOr zeroContributorStats (summary !! k))))).

Lemma csvRecords_canonical contributors repoOrder :
  csvOrderValid summary contributors repoOrder ->
  flat_map (recordsOf repoOrder) contributors ≡ₚ flat_map canonical ((map_to_list summary).*1).
Proof.
  intros [Hc Hr]. transitivity (flat_map canonical contributors).
  - apply flat_map_perm_pointwise. intros k Hk.
    apply (Permutation_in _ Hc), elem_of_keys in Hk as [s Hs].
    apply Permutation_map. rewrite (Hr k s Hs), Hs. done.
  - by rewrite Hc.
Qed.



End CsvFacts.

Lemma repoOrderOf_valid (summary : gmap string ContributorStats) (contributors : list string) :
  contributors ≡ₚ (map_to_list summary).*1 ->
  csvOrderValid summary contributors (repoOrderOf summary).
Proof.
  intros Hc. split; [done|]. intros k s Hs. unfold repoOrderOf. by rewrite Hs.
Qed.



(* ------------------------------------------------------------------ *)
(** ** fmt.Sprintf("%d") *)

Lemma digitChar_val d : (d < 10)%N -> digitVal (digitChar d) = d.
Proof. intros Hd. unfold digitVal, digitChar. rewrite N_ascii_embedding by lia. lia. Qed.

Lemma digitChar_not_minus d : (d < 10)%N -> digitChar d <> "-"%char.
Proof.
  intros Hd Heq. apply (f_equal N_of_ascii) in Heq. unfold digitChar in Heq.
  rewrite N_ascii_embedding in Heq by lia. simpl in Heq. lia.
Qed.

Lemma decValueAcc_append (s1 s2 : string) a :
  decValueAcc (String.append s1 s2) a = decValueAcc s2 (decValueAcc s1 a).
Proof. revert a. induction s1 as [|c s1 IH]; intros a; simpl; auto. Qed.

Lemma string_append_cons c (s1 s2 : string) :
  String.append (String c s1) s2 = String c (String.append s1 s2).
Proof. reflexivity. Qed.

Lemma string_append_assoc (s1 s2 s3 : string) :
  String.append (String.append s1 s2) s3 = String.append s1 (String.append s2 s3).
Proof. induction s1 as [|c s1 IH]; [done|]. rewrite !string_append_cons. by f_equal. Qed.

Lemma string_append_empty (s : string) : String.append s "" = s.
Proof. induction s as [|c s IH]; [done|]. rewrite string_append_cons. by f_equal. Qed.

Lemma string_length_append (s1 s2 : string) :
  String.length (String.append s1 s2) = (String.length s1 + String.length s2)%nat.
Proof. induction s1 as [|c s1 IH]; [done|]. rewrite string_append_cons. simpl. by f_equal. Qed.

Lemma pow10_succ k : (10 ^ N.of_nat (S k) = 10 * 10 ^ N.of_nat k)%N.
Proof. by rewrite Nat2N.inj_succ, N.pow_succ_r'. Qed.

Lemma decDigits_S fuel n acc :
  decDigits (S fuel) n acc =
  if (n / 10 =? 0)%N then String (digitChar (n mod 10)%N) acc
  else decDigits fuel (n / 10)%N (String (digitChar (n mod 10)%N) acc).
Proof. reflexivity. Qed.

Lemma decDigits_spec (fuel : nat) : forall n acc,
  (n < 10 ^ N.of_nat (S fuel))%N ->
  exists c D, decDigits (S fuel) n acc = String.append (String c D) acc /\ c <> "-"%char /\
    forall a, decValueAcc (String c D) a = (a * 10 ^ N.of_nat (S (String.length D)) + n)%N.
Proof.
  induction fuel as [|fuel IH]; intros n acc Hn; rewrite decDigits_S;
    pose proof (N.div_mod n 10 ltac:(lia)) as Hdm; pose proof (N.mod_lt n 10 ltac:(lia)) as Hml.
  - assert (n / 10 = 0)%N as H0 by (apply N.div_small; simpl in Hn; lia).
    rewrite H0. simpl. exists (digitChar (n mod 10)), "". split; [done|].
    split; [by apply digitChar_not_minus|]. intros a. simpl.
    rewrite digitChar_val by done. lia.
  - destruct (n / 10 =? 0)%N eqn:H0.
    + apply N.eqb_eq in H0. exists (digitChar (n mod 10)), "". split; [done|].
      split; [by apply digitChar_not_minus|]. intros a. simpl.
      rewrite digitChar_val by done. lia.
    + apply N.eqb_neq in H0.
      assert (n / 10 < 10 ^ N.of_nat (S fuel))%N as Hq.
      { apply N.Div0.div_lt_upper_bound. by rewrite <- pow10_succ. }
      destruct (IH (n / 10)%N (String (digitChar (n mod 10)%N) acc) Hq)
        as (c & D & Hd & Hc & Hv).
      exists c, (String.append D (String (digitChar (n mod 10)%N) "")). split; [|split; [done|]].
      * rewrite Hd, !string_append_cons. f_equal. symmetry. apply string_append_assoc.
      * intros a. rewrite <- string_append_cons.
        rewrite decValueAcc_append, Hv. simpl. rewrite digitChar_val by done.
        rewrite string_length_append. simpl. rewrite Nat.add_1_r, (pow10_succ (S _)). nia.
Qed.

Lemma size_nat_bound (n : N) : (n < 10 ^ N.of_nat (S (N.size_nat n)))%N.
Proof.
  assert (forall p, (N.pos p < 10 ^ N.of_nat (Pos.size_nat p))%N) as Hp.
  { induction p as [p IH|p IH|]; simpl Pos.size_nat; [| |simpl; lia];
      rewrite pow10_succ.
    - change (N.pos p~1) with (2 * N.pos p + 1)%N. lia.
    - change (N.pos p~0) with (2 * N.pos p)%N. lia. }
  rewrite pow10_succ. destruct n as [|p]; [simpl; lia|]. simpl N.size_nat.
  specialize (Hp p). lia.
Qed.

Lemma formatN_spec (n : N) :
  exists c D, formatN n = String c D /\ c <> "-"%char /\ decValueAcc (String c D) 0 = n.
Proof.
  unfold formatN. destruct (decDigits_spec (N.size_nat n) n "" (size_nat_bound n))
    as (c & D & Hd & Hc & Hv).
  exists c, D. rewrite Hd, string_append_empty. split; [done|]. split; [done|].
  rewrite Hv. lia.
Qed.

(** The numbers written by [outputCSV] read back to the counts: the
    decimal text of [formatInt z], with its optional ['-'], denotes [z]. *)
Theorem formatInt_read (z : Z) : readInt (formatInt z) = z.
Proof.
  unfold formatInt. destruct (z <? 0) eqn:Hz.
  - apply Z.ltb_lt in Hz. destruct (formatN_spec (Z.to_N (- z))) as (c & D & -> & _ & Hv).
    unfold readInt. cbv beta iota. rewrite Ascii.eqb_refl, Hv. lia.
  - apply Z.ltb_ge in Hz. destruct (formatN_spec (Z.to_N z)) as (c & D & -> & Hc & Hv).
    unfold readInt. apply Ascii.eqb_neq in Hc. rewrite Hc, Hv. lia.
Qed.
